(** * go-json: a shallow embedding of the decoder, the float scanner and the encoder

    The development follows the three source files of the repository:
    - [decode_float.go]: the numeric table and the two numeric scanners
      (module [DecodeFloat]);
    - the decoder front end ([Decoder.Decode], [Decoder.compile],
      [Decoder.compileStruct], ...; module [Decode]);
    - [encode.go]: the encoder front end ([Encoder.Encode], [Encoder.encode],
      [Encoder.reset], the emitters; module [Encode]).

    Bytes are [Byte.byte], Go [int64]/[uintptr] values are [Z], Go strings that
    serve as map keys are [string], Go maps are [gmap]. *)

From Stdlib Require Import ZArith Strings.Byte Strings.String Strings.Ascii.
From stdpp Require Import gmap strings list fin_maps pretty.

#[local] Set Warnings "-register-all".
#[local] Open Scope Z_scope.

(** ** Common data: errors, outcomes, readers *)

(** The error values that occur in the three files.  [errUnexpectedEndOfJSON]
    is the constructor called in decode_float.go (lines 70, 91, 94);
    [ErrDecodePointer] is returned by [Decoder.Decode]; [io_EOF] is the
    reader's end-of-input value; [errOther] stands for any other error value
    handed over by a reader, a writer or the number parser. *)
Inductive error : Type :=
| ErrDecodePointer
| errUnexpectedEndOfJSON (msg : string) (cursor : Z)
| io_EOF
| errOther (msg : string).

#[global] Instance error_eq_dec : EqDecision error.
Proof. solve_decision. Defined.

(** Modelled from the spec: the error taxonomy of section 7 (the declarations
    of the error values are not among the source files).  Only the classes
    that the embedded code can produce are the image of [classOf]. *)
Inductive ErrorClass : Type :=
| DestinationNotPointer
| UnsupportedType
| UnexpectedToken
| UnexpectedEOF
| NumberSyntax
| StringSyntax
| UnknownField
| Transport.

Definition classOf (e : error) : ErrorClass :=
  match e with
  | ErrDecodePointer => DestinationNotPointer
  | errUnexpectedEndOfJSON _ _ => UnexpectedEOF
  | io_EOF => Transport
  | errOther _ => Transport
  end.

#[global] Instance byte_eq_dec : EqDecision byte := Byte.byte_eq_dec.

(** What a Go call can do: return normally, return an error, or panic
    (index out of range, method call on a nil interface). *)
Inductive result (A : Type) : Type :=
| Ok (a : A)
| Err (e : error)
| Panic.
Arguments Ok {A} a.
Arguments Err {A} e.
Arguments Panic {A}.

(** [buf[i]] for an [int64] index: [None] is Go's index-out-of-range panic. *)
Definition index {A} (buf : list A) (i : Z) : option A :=
  if i <? 0 then None else buf !! Z.to_nat i.

(** [buf[lo:hi]]. *)
Definition slice {A} (buf : list A) (lo hi : Z) : list A :=
  take (Z.to_nat (hi - lo)) (drop (Z.to_nat lo) buf).

Definition len {A} (l : list A) : Z := Z.of_nat (length l).

(** An [io.Reader] is modelled by the answers it will give: each [Read]
    consumes one answer, the bytes it delivers (at most the 1024 of the slice
    it is given) and the error it returns with them; an exhausted reader
    answers [0, io.EOF]. *)
Record ReadResult : Type := mkRead { rr_data : list byte; rr_err : option error }.
Definition Reader : Type := list ReadResult.

Definition Read (r : Reader) : list byte * option error * Reader :=
  match r with
  | [] => ([], Some io_EOF, [])
  | x :: r' => (rr_data x, rr_err x, r')
  end.

(** A reader that delivers the given chunks, one per [Read], without error. *)
Definition chunks (cs : list (list byte)) : Reader :=
  map (fun c => mkRead c None) cs.

Definition bytes (s : string) : list byte := String.list_byte_of_string s.

(** ** decode_float.go *)
Module DecodeFloat.

Definition nul : byte := x00.

(** [var floatTable = [256]bool{'0': true, ..., '+': true}] *)
Definition floatTable : list bool :=
  foldr (fun c t => <[Byte.to_nat c := true]> t) (replicate 256 false)
        ["0"; "1"; "2"; "3"; "4"; "5"; "6"; "7"; "8"; "9"; "."; "e"; "E"; "+"]%byte.

(** [floatTable[c]] *)
Definition inFloatTable (c : byte) : bool :=
  default false (floatTable !! Byte.to_nat c).

(** [case ' ', '\n', '\t', '\r'] *)
Definition isSpace (c : byte) : bool :=
  match c with
  | x20 | x0a | x09 | x0d => true
  | _ => false
  end.

(** [case '-', '0', '1', '2', '3', '4', '5', '6', '7', '8', '9'] *)
Definition isNumberStart (c : byte) : bool :=
  match c with
  | "-" | "0" | "1" | "2" | "3" | "4" | "5" | "6" | "7" | "8" | "9" => true
  | _ => false
  end%byte.

Definition isDigit (c : byte) : bool :=
  match c with
  | "0" | "1" | "2" | "3" | "4" | "5" | "6" | "7" | "8" | "9" => true
  | _ => false
  end%byte.

(** *** The buffer scanner [floatDecoder.decodeByte] *)

(** The inner loop (lines 82-87), [n] being [buflen - cursor]: the loop test
    [cursor < buflen] is [n ≠ 0]. *)
Fixpoint decodeByte_extend (n : nat) (buf : list byte) (cursor : Z) : result Z :=
  match n with
  | O => Ok cursor
  | S n' =>
      match index buf cursor with
      | None => Panic
      | Some c =>
          if inFloatTable c then decodeByte_extend n' buf (cursor + 1)
          else Ok cursor
      end
  end.

(** The outer loop (lines 75-93), again with [n = buflen - cursor]; when the
    loop test fails the function falls through to line 94. *)
Fixpoint decodeByte_loop (n : nat) (buf : list byte) (cursor : Z)
  : result (list byte * Z) :=
  match n with
  | O => Err (errUnexpectedEndOfJSON "float" cursor)
  | S n' =>
      match index buf cursor with
      | None => Panic
      | Some c =>
          if isSpace c then decodeByte_loop n' buf (cursor + 1)
          else if isNumberStart c then
            let start := cursor in
            match decodeByte_extend n' buf (cursor + 1) with
            | Ok cursor' => Ok (slice buf start cursor', cursor')
            | Err e => Err e
            | Panic => Panic
            end
          else Err (errUnexpectedEndOfJSON "float" cursor)
      end
  end.

Definition decodeByte (buf : list byte) (cursor : Z) : result (list byte * Z) :=
  decodeByte_loop (Z.to_nat (len buf - cursor)) buf cursor.

(** *** The stream scanner [floatBytes] / [floatDecoder.decodeStreamByte] *)

(** Modelled from the spec: the type [stream] (its declaration and the methods
    [char], [read] and [totalOffset] are not among the source files).  Per
    section 4.4 a stream bundles the input buffer, the cursor, the total
    stream offset and the refill hook; the buffer ends with the sentinel
    [nul], and a refill that reads bytes keeps what is already buffered and
    appends the new bytes, again followed by the sentinel. *)
Record stream : Type := mkStream {
  buf : list byte;
  cursor : Z;
  offset : Z;
  r : Reader
}.

Definition set_cursor (s : stream) (c : Z) : stream :=
  mkStream (buf s) c (offset s) (r s).

(** [s.char()], that is [s.buf[s.cursor]]. *)
Definition char (s : stream) : option byte := index (buf s) (cursor s).

(** [s.read()]: [true] when the reader delivered bytes. *)
Definition read (s : stream) : bool * stream :=
  let '(data, _, r') := Read (r s) in
  match data with
  | [] => (false, mkStream (buf s) (cursor s) (offset s) r')
  | _ :: _ =>
      (true, mkStream (removelast (buf s) ++ data ++ [nul]) (cursor s) (offset s) r')
  end.

(** [s.totalOffset()] *)
Definition totalOffset (s : stream) : Z := offset s + cursor s.

(** A stream over the chunks [cs] whose first chunk [c] is already buffered. *)
Definition newStream (c : list byte) (cs : list (list byte)) : stream :=
  mkStream (c ++ [nul]) 0 0 (chunks cs).

(** The loop of [floatBytes] (lines 35-46).  The Go loop has no bound of its
    own; [fuel] counts its iterations, and [None] means that [fuel] did not
    suffice; [floatBytes_fuel] always does ([floatBytes_loop_enough]). *)
Fixpoint floatBytes_loop (fuel : nat) (s : stream) : option (result stream) :=
  match fuel with
  | O => None
  | S fuel' =>
      let s := set_cursor s (cursor s + 1) in
      match char s with
      | None => Some Panic
      | Some c =>
          if inFloatTable c then floatBytes_loop fuel' s
          else if Byte.eqb c nul then
            let '(more, s) := read s in
            if more then floatBytes_loop fuel' (set_cursor s (cursor s - 1))
            else Some (Ok s)
          else Some (Ok s)
      end
  end.

(** Bytes and answers still to come from the reader. *)
Definition pending (rd : Reader) : nat :=
  foldr (fun x n => S (length (rr_data x) + n)) O rd.

Definition floatBytes_fuel (s : stream) : nat :=
  S (Z.to_nat (len (buf s) - cursor s) + pending (r s)).

Definition floatBytes_with (fuel : nat) (s : stream)
  : option (result (stream * list byte)) :=
  let start := cursor s in
  match floatBytes_loop fuel s with
  | None => None
  | Some (Ok s') => Some (Ok (s', slice (buf s') start (cursor s')))
  | Some (Err e) => Some (Err e)
  | Some Panic => Some Panic
  end.

Definition floatBytes (s : stream) : option (result (stream * list byte)) :=
  floatBytes_with (floatBytes_fuel s) s.

(** The loop of [decodeStreamByte] (lines 53-68) with the [ERROR] label
    (line 70).  The stream is returned next to the result because the caller
    keeps using it. *)
Fixpoint decodeStreamByte_loop (fuel : nat) (s : stream)
  : option (stream * result (list byte)) :=
  match fuel with
  | O => None
  | S fuel' =>
      match char s with
      | None => Some (s, Panic)
      | Some c =>
          if isSpace c then decodeStreamByte_loop fuel' (set_cursor s (cursor s + 1))
          else if isNumberStart c then
            match floatBytes s with
            | None => None
            | Some (Ok (s', num)) => Some (s', Ok num)
            | Some (Err e) => Some (s, Err e)
            | Some Panic => Some (s, Panic)
            end
          else if Byte.eqb c nul then
            let '(more, s) := read s in
            if more then decodeStreamByte_loop fuel' s
            else Some (s, Err (errUnexpectedEndOfJSON "float" (totalOffset s)))
          else Some (s, Err (errUnexpectedEndOfJSON "float" (totalOffset s)))
      end
  end.

Definition decodeStreamByte (s : stream) : option (stream * result (list byte)) :=
  decodeStreamByte_loop (floatBytes_fuel s) s.

(** *** The decoder node *)

(** The two closures that [compileFloat32] and [compileFloat64] hand to
    [newFloatDecoder]: store the parsed value as [float32] or as [float64]. *)
Inductive floatWriter : Type := writeFloat32 | writeFloat64.

(** [type floatDecoder struct { op func(uintptr, float64) }] *)
Record floatDecoder : Type := newFloatDecoder { op : floatWriter }.

(** [func (d *floatDecoder) setDisallowUnknownFields(_ bool) {}] *)
Definition setDisallowUnknownFields (d : floatDecoder) (_ : bool) : floatDecoder := d.

(** The buffer invariant of a stream: the sentinel is the last byte. *)
Definition sentinel_terminated (s : stream) : Prop :=
  ∃ data, buf s = data ++ [nul].

(** The bytes that successive refills can still deliver: the data of the
    answers of the reader up to the first answer without data. *)
Fixpoint avail (rd : Reader) : list byte :=
  match rd with
  | [] => []
  | x :: rd' =>
      match rr_data x with
      | [] => []
      | b :: d => (b :: d) ++ avail rd'
      end
  end.

(** The whole input of a stream: what is buffered, without the sentinel,
    followed by what refills can deliver. *)
Definition stream_input (s : stream) : list byte :=
  removelast (buf s) ++ avail (r s).

(** *** [floatDecoder.decode] and [floatDecoder.decodeStream] *)

Section FloatNode.
(** [strconv.ParseFloat(str, 64)] belongs to Go's library and returns a
    floating-point number or an error; the call [d.op(p, f64)] stores the
    number at [p] in the way the closure of the decoder says. *)
Variable float64 : Type.
Variable ParseFloat : list byte → float64 + error.
Variable Mem : Type.
Variable store : floatWriter → Z → float64 → Mem → Mem.

(** [func (d *floatDecoder) decode(buf []byte, cursor int64, p uintptr)
    (int64, error)] (lines 111-124); [Err] stands for [0, err]. *)
Definition decode (d : floatDecoder) (input : list byte) (pos : Z) (p : Z) (m : Mem)
  : Mem * result Z :=
  match decodeByte input pos with
  | Err e => (m, Err e)
  | Panic => (m, Panic)
  | Ok (num, c) =>
      match ParseFloat num with
      | inr e => (m, Err e)
      | inl f64 => (store (op d) p f64 m, Ok c)
      end
  end.

(** [func (d *floatDecoder) decodeStream(s *stream, p uintptr) error]
    (lines 97-109). *)
Definition decodeStream (d : floatDecoder) (s : stream) (p : Z) (m : Mem)
  : option (stream * Mem * result unit) :=
  match decodeStreamByte s with
  | None => None
  | Some (s', Err e) => Some (s', m, Err e)
  | Some (s', Panic) => Some (s', m, Panic)
  | Some (s', Ok num) =>
      match ParseFloat num with
      | inr e => Some (s', m, Err e)
      | inl f64 => Some (s', store (op d) p f64 m, Ok tt)
      end
  end.
End FloatNode.

(** The error of the buffer scanner as the stream scanner reports it: the
    position is counted from the start of the stream. *)
Definition shift_error (off : Z) (e : error) : error :=
  match e with
  | errUnexpectedEndOfJSON msg j => errUnexpectedEndOfJSON msg (off + j)
  | _ => e
  end.

End DecodeFloat.

(** ** The decoder front end *)

(** The kinds of Go's [reflect] package, which the dispatcher switches on. *)
Module reflect.
Inductive Kind : Type :=
| Invalid | Bool | Int | Int8 | Int16 | Int32 | Int64
| Uint | Uint8 | Uint16 | Uint32 | Uint64 | Uintptr
| Float32 | Float64 | Complex64 | Complex128
| Array | Chan | Func | Interface | Map | Ptr | Slice | String | Struct
| UnsafePointer.

#[global] Instance Kind_eq_dec : EqDecision Kind.
Proof. solve_decision. Defined.
End reflect.

Module Decode.

(** *** Type descriptors *)

(** The types without element type and without fields. *)
Inductive BasicType : Type :=
| TBool | TInt | TInt8 | TInt16 | TInt32 | TInt64
| TUint | TUint8 | TUint16 | TUint32 | TUint64 | TUintptr
| TFloat32 | TFloat64 | TComplex64 | TComplex128
| TString | TInterface | TFunc | TUnsafePointer.

(** A type descriptor ([*rtype]) and a [reflect.StructField]: what the
    compiler asks of a type is its kind, its element type, its length, its
    string and its fields.  A descriptor is a finite tree here: a type that
    refers to itself (a record with a field that points to the record), on
    which the recursion of [compile] has no end in the source, is not among
    these values, and nothing below speaks about such a type. *)
Inductive rtype : Type :=
| Basic (b : BasicType)
| PtrTo (elem : rtype)
| SliceOf (elem : rtype)
| ArrayOf (n : Z) (elem : rtype)
| MapOf (key elem : rtype)
| ChanOf (elem : rtype)
| StructOf (name : string) (fields : list StructField)
with StructField : Type :=
| mkStructField (Name PkgPath : string) (Anonymous : bool)
    (Tag : list (string * string)) (Type_ : rtype) (Offset : Z).

Definition Name (f : StructField) : string :=
  match f with mkStructField n _ _ _ _ _ => n end.
Definition PkgPath (f : StructField) : string :=
  match f with mkStructField _ p _ _ _ _ => p end.
Definition Anonymous (f : StructField) : bool :=
  match f with mkStructField _ _ a _ _ _ => a end.
Definition Tag (f : StructField) : list (string * string) :=
  match f with mkStructField _ _ _ t _ _ => t end.
Definition Type_ (f : StructField) : rtype :=
  match f with mkStructField _ _ _ _ t _ => t end.
Definition Offset (f : StructField) : Z :=
  match f with mkStructField _ _ _ _ _ o => o end.

Definition basicKind (b : BasicType) : reflect.Kind :=
  match b with
  | TBool => reflect.Bool
  | TInt => reflect.Int | TInt8 => reflect.Int8 | TInt16 => reflect.Int16
  | TInt32 => reflect.Int32 | TInt64 => reflect.Int64
  | TUint => reflect.Uint | TUint8 => reflect.Uint8 | TUint16 => reflect.Uint16
  | TUint32 => reflect.Uint32 | TUint64 => reflect.Uint64
  | TUintptr => reflect.Uintptr
  | TFloat32 => reflect.Float32 | TFloat64 => reflect.Float64
  | TComplex64 => reflect.Complex64 | TComplex128 => reflect.Complex128
  | TString => reflect.String
  | TInterface => reflect.Interface
  | TFunc => reflect.Func
  | TUnsafePointer => reflect.UnsafePointer
  end.

(** [typ.Kind()] *)
Definition Kind (typ : rtype) : reflect.Kind :=
  match typ with
  | Basic b => basicKind b
  | PtrTo _ => reflect.Ptr
  | SliceOf _ => reflect.Slice
  | ArrayOf _ _ => reflect.Array
  | MapOf _ _ => reflect.Map
  | ChanOf _ => reflect.Chan
  | StructOf _ _ => reflect.Struct
  end.

(** [typ.Elem()]; [None] is the panic of [Elem] on a kind without element. *)
Definition Elem (typ : rtype) : option rtype :=
  match typ with
  | PtrTo e | SliceOf e | ArrayOf _ e | MapOf _ e | ChanOf e => Some e
  | Basic _ | StructOf _ _ => None
  end.

Definition basicString (b : BasicType) : string :=
  match b with
  | TBool => "bool"
  | TInt => "int" | TInt8 => "int8" | TInt16 => "int16"
  | TInt32 => "int32" | TInt64 => "int64"
  | TUint => "uint" | TUint8 => "uint8" | TUint16 => "uint16"
  | TUint32 => "uint32" | TUint64 => "uint64" | TUintptr => "uintptr"
  | TFloat32 => "float32" | TFloat64 => "float64"
  | TComplex64 => "complex64" | TComplex128 => "complex128"
  | TString => "string"
  | TInterface => "interface {}"
  | TFunc => "func()"
  | TUnsafePointer => "unsafe.Pointer"
  end.

(** [typ.String()]; a struct type answers with its name. *)
Fixpoint typeString (typ : rtype) : string :=
  match typ with
  | Basic b => basicString b
  | PtrTo e => "*" +:+ typeString e
  | SliceOf e => "[]" +:+ typeString e
  | ArrayOf n e => "[" +:+ pretty n +:+ "]" +:+ typeString e
  | MapOf k e => "map[" +:+ typeString k +:+ "]" +:+ typeString e
  | ChanOf e => "chan " +:+ typeString e
  | StructOf name _ => name
  end.

(** *** Programs: the decoder nodes *)

Inductive intWriter : Type :=
| writeInt | writeInt8 | writeInt16 | writeInt32 | writeInt64.
Inductive uintWriter : Type :=
| writeUint | writeUint8 | writeUint16 | writeUint32 | writeUint64.

(** [structFieldSet{dec, offset}] *)
Record structFieldSet (D : Type) : Type := mkFieldSet { dec : option D; offset : Z }.
Arguments mkFieldSet {D} dec offset.
Arguments dec {D} _.
Arguments offset {D} _.

(** The values of the interface [decoder] that the compiler builds, by
    constructor ([newPtrDecoder], [newIntDecoder], ...).  An interface value
    can be nil, so a possibly absent decoder is an [option decoder]. *)
Inductive decoder : Type :=
| ptrDecoder (d : option decoder) (typ : rtype)
| intDecoder (op : intWriter)
| uintDecoder (op : uintWriter)
| floatDecoder (d : DecodeFloat.floatDecoder)
| stringDecoder
| boolDecoder
| sliceDecoder (d : option decoder) (elem : rtype) (size : Z)
| arrayDecoder (d : option decoder) (elem : rtype) (alen : Z)
| structDecoder (fieldMap : gmap string (structFieldSet decoder)).

(** *** The compiler *)

(** [field.Tag.Get(key)]: the tag is kept as its key/value pairs. *)
Fixpoint Tag_Get (tag : list (string * string)) (key : string) : string :=
  match tag with
  | [] => EmptyString
  | (k, v) :: tag' => if String.eqb k key then v else Tag_Get tag' key
  end.

(** [strings.Split(s, sep)] for a separator of one character. *)
Fixpoint Split (s : string) (sep : ascii) : list string :=
  match s with
  | EmptyString => [EmptyString]
  | String c s' =>
      if Ascii.eqb c sep then EmptyString :: Split s' sep
      else match Split s' sep with
           | [] => [String c EmptyString]
           | x :: xs => String c x :: xs
           end
  end.

Definition getTag (field : StructField) : string := Tag_Get (Tag field) "json".

Definition isIgnoredStructField (field : StructField) : bool :=
  if negb (String.eqb (PkgPath field) EmptyString) && negb (Anonymous field)
  then true
  else if String.eqb (getTag field) "-" then true
  else false.

(** Lines 319-326 of [compileStruct]: the serialized name of a field. *)
Definition keyNameOf (field : StructField) : string :=
  let keyName := Name field in
  let tag := getTag field in
  let opts := Split tag "," in
  match opts with
  | [] => keyName
  | o :: _ => if negb (String.eqb o EmptyString) then o else keyName
  end.

Section Compiler.
(** [strings.ToLower] and [typ.Size()] come from Go's library and from the
    platform. *)
Variable ToLower : string → string.
Variable Size : rtype → Z.

Section Fields.
Variable compile : rtype → result (option decoder).

(** The loop of [compileStruct] (lines 314-335). *)
Fixpoint compileStruct_loop (fields : list StructField)
    (fieldMap : gmap string (structFieldSet decoder))
  : result (gmap string (structFieldSet decoder)) :=
  match fields with
  | [] => Ok fieldMap
  | field :: rest =>
      if isIgnoredStructField field then compileStruct_loop rest fieldMap
      else
        let keyName := keyNameOf field in
        match compile (Type_ field) with
        | Err e => Err e
        | Panic => Panic
        | Ok d =>
            let fieldSet := mkFieldSet d (Offset field) in
            let fieldMap := <[Name field := fieldSet]> fieldMap in
            let fieldMap := <[keyName := fieldSet]> fieldMap in
            let fieldMap := <[ToLower keyName := fieldSet]> fieldMap in
            compileStruct_loop rest fieldMap
        end
  end.
End Fields.

(** [Decoder.compile], with [compilePtr], [compileStruct], [compileSlice],
    [compileArray] and the leaf compilers inlined at their [case]. *)
Fixpoint compile (typ : rtype) : result (option decoder) :=
  match typ with
  | PtrTo elem =>
      match compile elem with
      | Err e => Err e
      | Panic => Panic
      | Ok d => Ok (Some (ptrDecoder d elem))
      end
  | StructOf _ fields =>
      match compileStruct_loop compile fields ∅ with
      | Err e => Err e
      | Panic => Panic
      | Ok fieldMap => Ok (Some (structDecoder fieldMap))
      end
  | SliceOf elem =>
      match compile elem with
      | Err e => Err e
      | Panic => Panic
      | Ok d => Ok (Some (sliceDecoder d elem (Size elem)))
      end
  | ArrayOf n elem =>
      match compile elem with
      | Err e => Err e
      | Panic => Panic
      | Ok d => Ok (Some (arrayDecoder d elem n))
      end
  | Basic TInt => Ok (Some (intDecoder writeInt))
  | Basic TInt8 => Ok (Some (intDecoder writeInt8))
  | Basic TInt16 => Ok (Some (intDecoder writeInt16))
  | Basic TInt32 => Ok (Some (intDecoder writeInt32))
  | Basic TInt64 => Ok (Some (intDecoder writeInt64))
  | Basic TUint => Ok (Some (uintDecoder writeUint))
  | Basic TUint8 => Ok (Some (uintDecoder writeUint8))
  | Basic TUint16 => Ok (Some (uintDecoder writeUint16))
  | Basic TUint32 => Ok (Some (uintDecoder writeUint32))
  | Basic TUint64 => Ok (Some (uintDecoder writeUint64))
  | Basic TString => Ok (Some stringDecoder)
  | Basic TBool => Ok (Some boolDecoder)
  | Basic TFloat32 =>
      Ok (Some (floatDecoder (DecodeFloat.newFloatDecoder DecodeFloat.writeFloat32)))
  | Basic TFloat64 =>
      Ok (Some (floatDecoder (DecodeFloat.newFloatDecoder DecodeFloat.writeFloat64)))
  | _ => Ok None
  end.

(** [Decoder.compileStruct] *)
Definition compileStruct (typ : rtype) : result (option decoder) :=
  match typ with
  | StructOf _ fields =>
      match compileStruct_loop compile fields ∅ with
      | Err e => Err e
      | Panic => Panic
      | Ok fieldMap => Ok (Some (structDecoder fieldMap))
      end
  | _ => Panic
  end.
End Compiler.

(** *** The runtime of [Decoder.Decode] *)

(** Modelled from the spec: the type [context] with [newContext] and [setBuf]
    (not among the source files).  Per section 4.4 a context bundles the
    input buffer and the cursor; installing a buffer starts at its first
    byte. *)
Record context : Type := mkContext { buf : list byte; cursor : Z }.

Definition newContext : context := mkContext [] 0.
Definition setBuf (ctx : context) (b : list byte) : context := mkContext b 0.

(** [interfaceHeader{typ, ptr}]: the type descriptor and the data word of the
    [interface{}] argument, for an argument that is not the nil interface.
    The header of the nil interface has no type descriptor, and
    [typ.Kind()], the first thing [Decode] and [decode] do, panics on it;
    that call is not among the values of this type. *)
Record interfaceHeader : Type := mkHeader { typ : rtype; ptr : Z }.

(** [type Decoder struct { r io.Reader; buffered func() io.Reader }]; the
    closure [buffered] plays no part in what follows and is left out. *)
Record Decoder : Type := NewDecoder { r : Reader }.

(** The package variables [cachedDecoder] and [ctxPool].  [compiled] is not
    part of the program: it records, in order, the name under which each
    call of [d.compile] in [Decode] was made. *)
Record State : Type := mkState {
  cachedDecoder : gmap string (option decoder);
  ctxPool : list context;
  compiled : list string
}.

(** The state after [init()]. *)
Definition init : State := mkState ∅ [] [].

(** [ctxPool.Get()]: a pooled context, or [New()]. *)
Definition ctxPool_Get (pool : list context) : context * list context :=
  match pool with
  | [] => (newContext, [])
  | ctx :: pool' => (ctx, pool')
  end.

(** [func (d *Decoder) DisallowUnknownFields() { }] *)
Definition DisallowUnknownFields (d : Decoder) : Decoder := d.

Section Runtime.
Variable ToLower : string → string.
Variable Size : rtype → Z.
(** The destination memory, and the method [decode] of the nodes (their
    source files are not among those of the repository given here): it
    reads from the context and writes the destination at the pointer. *)
Variable Mem : Type.
Variable decode_node : decoder → context → Z → Mem → context * Mem * option error.

(** Lines 113-123: the cached decoder for [name], compiled and published
    on a miss. *)
Definition cachedOrCompile (st : State) (typ : rtype) (name : string)
  : State * result (option decoder) :=
  match cachedDecoder st !! name with
  | Some d => (st, Ok d)
  | None =>
      match Elem typ with
      | None => (st, Panic)
      | Some elem =>
          let st := mkState (cachedDecoder st) (ctxPool st) (compiled st ++ [name]) in
          match compile ToLower Size elem with
          | Err e => (st, Err e)
          | Panic => (st, Panic)
          | Ok compiledDec =>
              if negb (String.eqb name EmptyString) then
                (mkState (<[name := compiledDec]> (cachedDecoder st))
                         (ctxPool st) (compiled st),
                 Ok compiledDec)
              else (st, Ok compiledDec)
          end
      end
  end.

(** The loop of lines 130-143; the recursion is on the answers the reader
    still has, the exhausted reader answering [0, io.EOF]. *)
Fixpoint Decode_loop (rd : Reader) (d : option decoder) (ctx : context)
    (p : Z) (m : Mem) : Reader * context * Mem * result unit :=
  match rd with
  | [] => ([], ctx, m, Ok tt)
  | x :: rd' =>
      let n := len (rr_data x) in
      let err := rr_err x in
      if (n =? 0) || bool_decide (err = Some io_EOF) then (rd', ctx, m, Ok tt)
      else
        match err with
        | Some e => (rd', ctx, m, Err e)
        | None =>
            let ctx := setBuf ctx (rr_data x) in
            match d with
            | None => (rd', ctx, m, Panic)
            | Some node =>
                match decode_node node ctx p m with
                | (ctx, m, Some e) => (rd', ctx, m, Err e)
                | (ctx, m, None) => Decode_loop rd' d ctx p m
                end
            end
        end
  end.

(** [func (d *Decoder) Decode(v interface{}) error] *)
Definition Decode (st : State) (d : Decoder) (v : interfaceHeader) (m : Mem)
  : State * Decoder * Mem * result unit :=
  let typ := typ v in
  if bool_decide (Kind typ ≠ reflect.Ptr) then (st, d, m, Err ErrDecodePointer)
  else
    let name := typeString typ in
    match cachedOrCompile st typ name with
    | (st, Err e) => (st, d, m, Err e)
    | (st, Panic) => (st, d, m, Panic)
    | (st, Ok dec) =>
        let p := ptr v in
        let '(ctx, pool) := ctxPool_Get (ctxPool st) in
        let '(rd, ctx, m, res) := Decode_loop (r d) dec ctx p m in
        (mkState (cachedDecoder st) (ctx :: pool) (compiled st),
         NewDecoder rd, m, res)
    end.

(** A sequence of [Decode] calls on one decoder, each with its destination;
    the results are collected in order. *)
Fixpoint Decode_all (st : State) (d : Decoder) (vs : list interfaceHeader) (m : Mem)
  : State * Decoder * Mem * list (result unit) :=
  match vs with
  | [] => (st, d, m, [])
  | v :: vs' =>
      let '(st, d, m, res) := Decode st d v m in
      let '(st, d, m, ress) := Decode_all st d vs' m in
      (st, d, m, res :: ress)
  end.
End Runtime.

(** A runtime that only observes: each node appends to the memory the buffer
    it is handed, and consumes it. *)
Definition observe (_ : decoder) (ctx : context) (_ : Z) (m : list (list byte))
  : context * list (list byte) * option error :=
  (mkContext (buf ctx) (len (buf ctx)), m ++ [buf ctx], None).

(** ASCII lower case (what [strings.ToLower] does on ASCII names). *)
Definition lowerAscii (c : ascii) : ascii :=
  let n := nat_of_ascii c in
  if (65 <=? n)%nat && (n <=? 90)%nat then ascii_of_nat (n + 32) else c.

Fixpoint ToLowerASCII (s : string) : string :=
  match s with
  | EmptyString => EmptyString
  | String c s' => String (lowerAscii c) (ToLowerASCII s')
  end.

(** The three keys under which [compileStruct] files a field. *)
Definition keysOf (ToLower : string → string) (field : StructField) : list string :=
  [Name field; keyNameOf field; ToLower (keyNameOf field)].

(** Sample inputs: a size function that gives every type one word, and a
    record with two fields whose tags differ in case only,
    [struct { A int `json:"x"`; B int `json:"X"` }]. *)
Definition wordSize (_ : rtype) : Z := 8.

Definition fieldA : StructField :=
  mkStructField "A" EmptyString false [("json", "x")] (Basic TInt) 0.
Definition fieldB : StructField :=
  mkStructField "B" EmptyString false [("json", "X")] (Basic TInt) 8.
Definition recordAB : rtype := StructOf "main.T" [fieldA; fieldB].

(** Two record types with the same string: [T] of a package [model] with a
    field [X int], and [T] of another package named [model] with a field
    [Y string].  ([Type.String] shortens the package path to the package
    name and is not unique among types.) *)
Definition modelT1 : rtype :=
  StructOf "model.T" [mkStructField "X" EmptyString false [] (Basic TInt) 0].
Definition modelT2 : rtype :=
  StructOf "model.T" [mkStructField "Y" EmptyString false [] (Basic TString) 0].

(** The invariant that ties the record of compilations to the cache: no name
    was compiled twice, and what was compiled is published. *)
Definition compiled_once (st : State) : Prop :=
  NoDup (compiled st) ∧ ∀ name, name ∈ compiled st → is_Some (cachedDecoder st !! name).

(** The kinds for which [compile] has no [case]. *)
Definition unhandled (k : reflect.Kind) : bool :=
  match k with
  | reflect.Invalid | reflect.Uintptr | reflect.Complex64 | reflect.Complex128
  | reflect.Chan | reflect.Func | reflect.Interface | reflect.Map
  | reflect.UnsafePointer => true
  | _ => false
  end.

(** *** The entry point of [Unmarshal] *)

Section Unmarshal.
Variable ToLower : string → string.
Variable Size : rtype → Z.
Variable Mem : Type.
Variable decode_node : decoder → context → Z → Mem → context * Mem * option error.

(** [func (d *Decoder) decode(src []byte, header *interfaceHeader) error]
    (lines 62-88).  The context goes back to the pool by the two explicit
    calls of [Put]; a panic of [dec.decode] passes them by. *)
Definition decode (st : State) (d : Decoder) (src : list byte) (v : interfaceHeader)
    (m : Mem) : State * Mem * result unit :=
  let typ := typ v in
  if bool_decide (Kind typ ≠ reflect.Ptr) then (st, m, Err ErrDecodePointer)
  else
    let name := typeString typ in
    match cachedOrCompile ToLower Size st typ name with
    | (st, Err e) => (st, m, Err e)
    | (st, Panic) => (st, m, Panic)
    | (st, Ok dec) =>
        let p := ptr v in
        let '(ctx, pool) := ctxPool_Get (ctxPool st) in
        let ctx := setBuf ctx src in
        match dec with
        | None => (mkState (cachedDecoder st) pool (compiled st), m, Panic)
        | Some node =>
            match decode_node node ctx p m with
            | (ctx, m, Some e) =>
                (mkState (cachedDecoder st) (ctx :: pool) (compiled st), m, Err e)
            | (ctx, m, None) =>
                (mkState (cachedDecoder st) (ctx :: pool) (compiled st), m, Ok tt)
            end
        end
    end.

(** [decodeForUnmarshal] and [decodeForUnmarshalNoEscape] (lines 90-99) read
    the header of [v] and call [decode]; [escape] only keeps the type
    descriptor alive. *)
Definition decodeForUnmarshal := decode.
Definition decodeForUnmarshalNoEscape := decode.

(** Every published decoder is what [compile] returns for the element type
    of a pointer type with that name. *)
Definition cache_sound (st : State) : Prop :=
  ∀ name dec, cachedDecoder st !! name = Some dec →
    ∃ elem, name = typeString (PtrTo elem) ∧ compile ToLower Size elem = Ok dec.
End Unmarshal.

(** Whether the character [c] occurs in [s]. *)
Fixpoint occurs (c : ascii) (s : string) : bool :=
  match s with
  | EmptyString => false
  | String a s' => Ascii.eqb a c || occurs c s'
  end.

End Decode.

(** ** encode.go *)
Module Encode.

(** An [io.Writer]: the byte slices written so far, one per [Write], and the
    error it answers with, if it is a failing writer. *)
Record Writer : Type := mkWriter { written : list (list byte); failing : option error }.

Definition Writer_Write (wr : Writer) (b : list byte) : Writer * option error :=
  match failing wr with
  | Some err => (wr, Some err)
  | None => (mkWriter (written wr ++ [b]) None, None)
  end.

(** [interfaceHeader{typ, ptr}]; the encoder uses the type descriptor only
    through its address [typeptr]. *)
Record interfaceHeader : Type := mkHeader { typ : Z; ptr : Z }.

Section Engine.
(** The opcode programs, their compiler [compileHead] and their interpreter
    [run] are defined in source files that are not among those given here;
    [set_ptr code p] is the assignment [code.ptr = p]. *)
Variable opcode : Type.
Variable copyOpcode : opcode → opcode.
Variable set_ptr : opcode → Z → opcode.

(** [type Encoder struct]; the field [pool], a copy of [encPool], is
    represented by [encPool] itself. *)
Record Encoder : Type := mkEncoder {
  w : option Writer;
  buf : list byte;
  enabledIndent : bool;
  enabledHTMLEscape : bool;
  prefix : list byte;
  indentStr : list byte;
  indent : Z;
  structTypeToCompiledCode : gmap Z opcode;
  structTypeToCompiledIndentCode : gmap Z opcode
}.

Definition set_buf (e : Encoder) (b : list byte) : Encoder :=
  mkEncoder (w e) b (enabledIndent e) (enabledHTMLEscape e) (prefix e)
    (indentStr e) (indent e) (structTypeToCompiledCode e)
    (structTypeToCompiledIndentCode e).

Definition set_w (e : Encoder) (wr : option Writer) : Encoder :=
  mkEncoder wr (buf e) (enabledIndent e) (enabledHTMLEscape e) (prefix e)
    (indentStr e) (indent e) (structTypeToCompiledCode e)
    (structTypeToCompiledIndentCode e).

Variable compileHead : Encoder → Z → bool → Encoder * result opcode.
Variable run : Encoder → opcode → Encoder * option error.
(** [bytes.Repeat] comes from Go's library; [None] is its panic (a negative
    count, a length that overflows [int] or that cannot be allocated). *)
Variable Repeat : list byte → Z → option (list byte).

(** A [sync.Pool] of opcode programs: the free objects and the program
    that [New] copies. *)
Record Pool : Type := mkPool { free : list opcode; template : opcode }.

Definition Pool_Get (p : Pool) : opcode * Pool :=
  match free p with
  | [] => (copyOpcode (template p), p)
  | c :: rest => (c, mkPool rest (template p))
  end.

Definition Pool_Put (p : Pool) (c : opcode) : Pool :=
  mkPool (c :: free p) (template p).

(** [type opcodeSet struct { codeIndent sync.Pool; code sync.Pool }] *)
Record opcodeSet : Type := mkOpcodeSet { codeIndent : Pool; code : Pool }.

(** The package variables [cachedOpcode] and [encPool].  [compiledHeads]
    is not part of the program: it records, in order, the arguments of
    every call of [compileHead]. *)
Record State : Type := mkState {
  cachedOpcode : gmap Z opcodeSet;
  encPool : list Encoder;
  compiledHeads : list (Z * bool)
}.

Definition init : State := mkState ∅ [] [].

Definition set_cachedOpcode (st : State) (m : gmap Z opcodeSet) : State :=
  mkState m (encPool st) (compiledHeads st).

Definition log_compile (st : State) (typeptr : Z) (withIndent : bool) : State :=
  mkState (cachedOpcode st) (encPool st) (compiledHeads st ++ [(typeptr, withIndent)]).

(** [func (e *Encoder) reset()] *)
Definition reset (e : Encoder) : Encoder :=
  mkEncoder (w e) [] false true (prefix e) (indentStr e) 0
    (structTypeToCompiledCode e) (structTypeToCompiledIndentCode e).

(** [encPool.New]: the encoder of lines 66-71. *)
Definition newEncoder : Encoder :=
  mkEncoder None [] false false [] [] 0 ∅ ∅.

(** [func NewEncoder(w io.Writer) *Encoder] *)
Definition NewEncoder (st : State) (wr : Writer) : State * Encoder :=
  let '(enc, pool) :=
    match encPool st with
    | [] => (newEncoder, [])
    | enc :: pool => (enc, pool)
    end in
  let enc := set_w enc (Some wr) in
  (mkState (cachedOpcode st) pool (compiledHeads st), reset enc).

(** [func (e *Encoder) release()] *)
Definition release (st : State) (e : Encoder) : State :=
  mkState (cachedOpcode st) (set_w e None :: encPool st) (compiledHeads st).

(** [func (e *Encoder) SetEscapeHTML(on bool)] *)
Definition SetEscapeHTML (e : Encoder) (on : bool) : Encoder :=
  mkEncoder (w e) (buf e) (enabledIndent e) on (prefix e) (indentStr e) (indent e)
    (structTypeToCompiledCode e) (structTypeToCompiledIndentCode e).

(** [func (e *Encoder) SetIndent(prefix, indent string)] *)
Definition SetIndent (e : Encoder) (pre ind : list byte) : Encoder :=
  match pre, ind with
  | [], [] =>
      mkEncoder (w e) (buf e) false (enabledHTMLEscape e) (prefix e)
        (indentStr e) (indent e) (structTypeToCompiledCode e)
        (structTypeToCompiledIndentCode e)
  | _, _ =>
      mkEncoder (w e) (buf e) true (enabledHTMLEscape e) pre ind (indent e)
        (structTypeToCompiledCode e) (structTypeToCompiledIndentCode e)
  end.

(** The emitters of lines 225-284 that do not involve floating point or
    the escape tables. *)
Definition encodeInt64 (e : Encoder) (v : Z) : Encoder :=
  set_buf e (buf e ++ bytes (pretty v)).
Definition encodeUint64 (e : Encoder) (v : Z) : Encoder :=
  set_buf e (buf e ++ bytes (pretty v)).
(** The conversions [int64(v)] and [uint64(v)] keep the value. *)
Definition encodeInt (e : Encoder) (v : Z) : Encoder := encodeInt64 e v.
Definition encodeInt8 (e : Encoder) (v : Z) : Encoder := encodeInt64 e v.
Definition encodeInt16 (e : Encoder) (v : Z) : Encoder := encodeInt64 e v.
Definition encodeInt32 (e : Encoder) (v : Z) : Encoder := encodeInt64 e v.
Definition encodeUint (e : Encoder) (v : Z) : Encoder := encodeUint64 e v.
Definition encodeUint8 (e : Encoder) (v : Z) : Encoder := encodeUint64 e v.
Definition encodeUint16 (e : Encoder) (v : Z) : Encoder := encodeUint64 e v.
Definition encodeUint32 (e : Encoder) (v : Z) : Encoder := encodeUint64 e v.
Definition encodeBool (e : Encoder) (v : bool) : Encoder :=
  set_buf e (buf e ++ bytes (if v then "true" else "false")).
Definition encodeBytes (e : Encoder) (b : list byte) : Encoder :=
  set_buf e (buf e ++ b).
Definition encodeNull (e : Encoder) : Encoder :=
  set_buf e (buf e ++ bytes "null").
Definition encodeByte (e : Encoder) (b : byte) : Encoder :=
  set_buf e (buf e ++ [b]).
Definition encodeIndent (e : Encoder) (n : Z) : result Encoder :=
  let e := set_buf e (buf e ++ prefix e) in
  match Repeat (indentStr e) n with
  | None => Panic
  | Some r => Ok (set_buf e (buf e ++ r))
  end.

(** [func (e *Encoder) encode(v interface{}) error] (lines 151-207).  On
    the first branch the program comes from the pool of the cached set and
    goes back to it after a run without error; on the second the two
    programs are compiled, published, and the one of the current mode is
    run.  The closures [New] of the two pools hold the pointers to the
    compiled programs, so the assignment [code.ptr = p] that precedes [run]
    shows in the published program of the current mode; what [run] itself
    may change in a program is not tracked. *)
Definition encode (st : State) (e : Encoder) (v : interfaceHeader)
  : State * Encoder * result unit :=
  let typeptr := typ v in
  match cachedOpcode st !! typeptr with
  | Some codeSet =>
      let '(c, codeSet) :=
        if enabledIndent e
        then let '(c, p) := Pool_Get (codeIndent codeSet) in
             (c, mkOpcodeSet p (code codeSet))
        else let '(c, p) := Pool_Get (code codeSet) in
             (c, mkOpcodeSet (codeIndent codeSet) p) in
      let c := set_ptr c (ptr v) in
      match run e c with
      | (e, Some err) =>
          (set_cachedOpcode st (<[typeptr := codeSet]> (cachedOpcode st)), e, Err err)
      | (e, None) =>
          let codeSet :=
            if enabledIndent e
            then mkOpcodeSet (Pool_Put (codeIndent codeSet) c) (code codeSet)
            else mkOpcodeSet (codeIndent codeSet) (Pool_Put (code codeSet) c) in
          (set_cachedOpcode st (<[typeptr := codeSet]> (cachedOpcode st)), e, Ok tt)
      end
  | None =>
      let st := log_compile st typeptr true in
      match compileHead e typeptr true with
      | (e, Err err) => (st, e, Err err)
      | (e, Panic) => (st, e, Panic)
      | (e, Ok cIndent) =>
          let st := log_compile st typeptr false in
          match compileHead e typeptr false with
          | (e, Err err) => (st, e, Err err)
          | (e, Panic) => (st, e, Panic)
          | (e, Ok c) =>
              let p := ptr v in
              let cIndent' := if enabledIndent e then set_ptr cIndent p else cIndent in
              let c' := if enabledIndent e then c else set_ptr c p in
              let codeSet := mkOpcodeSet (mkPool [] cIndent') (mkPool [] c') in
              let st := set_cachedOpcode st (<[typeptr := codeSet]> (cachedOpcode st)) in
              let '(e, err) := run e (if enabledIndent e then cIndent' else c') in
              (st, e, match err with Some err => Err err | None => Ok tt end)
          end
      end
  end.

(** [func (e *Encoder) Encode(v interface{}) error] (lines 90-98) *)
Definition Encode (st : State) (e : Encoder) (v : interfaceHeader)
  : State * Encoder * result unit :=
  match encode st e v with
  | (st, e, Err err) => (st, e, Err err)
  | (st, e, Panic) => (st, e, Panic)
  | (st, e, Ok _) =>
      match w e with
      | None => (st, e, Panic)
      | Some wr =>
          let '(wr, err) := Writer_Write wr (buf e) in
          (st, set_w e (Some wr),
           match err with Some err => Err err | None => Ok tt end)
      end
  end.

(** [func (e *Encoder) encodeForMarshal(v interface{}) ([]byte, error)] *)
Definition encodeForMarshal (st : State) (e : Encoder) (v : interfaceHeader)
  : State * Encoder * result (list byte) :=
  match encode st e v with
  | (st, e, Err err) => (st, e, Err err)
  | (st, e, Panic) => (st, e, Panic)
  | (st, e, Ok _) =>
      if enabledIndent e then
        let last := len (buf e) - 1 in
        match index (buf e) last with
        | None => (st, e, Panic)
        | Some b =>
            let last := if Byte.eqb b x0a then last - 1 else last in
            let length := last + 1 in
            (st, e, Ok (slice (buf e) 0 length))
        end
      else (st, e, Ok (buf e))
  end.

(** What the writer of an encoder has received, [Write] by [Write]. *)
Definition output (e : Encoder) : list (list byte) :=
  match w e with
  | None => []
  | Some wr => written wr
  end.

(** [run] only appends to the output buffer, as every emitter of
    encode.go does. *)
Definition run_appends : Prop :=
  ∀ e c, ∃ out, buf (run e c).1 = buf e ++ out ∧ w (run e c).1 = w e.

(** A sequence of calls on one encoder: each call may first set the
    indentation with [SetIndent] and then encodes a value with [Encode]. *)
Fixpoint Encode_all (st : State) (e : Encoder)
    (calls : list (option (list byte * list byte) * interfaceHeader))
  : State * Encoder * list (result unit) :=
  match calls with
  | [] => (st, e, [])
  | (ind, v) :: calls' =>
      let e := match ind with
               | Some (pre, unit) => SetIndent e pre unit
               | None => e
               end in
      let '(st, e, res) := Encode st e v in
      let '(st, e, ress) := Encode_all st e calls' in
      (st, e, res :: ress)
  end.

(** The compilations of the type [t] in a record of compilations, and a
    compiler that accepts [t] in both modes. *)
Definition headsOf (t : Z) (log : list (Z * bool)) : list (Z * bool) :=
  filter (λ x, x.1 = t) log.

Definition compileHead_succeeds_on (t : Z) : Prop :=
  ∀ e b, ∃ e' c, compileHead e t b = (e', Ok c).

(** Both compilations of lines 179-186 succeed for the type [t], starting
    from the encoder [e]. *)
Definition both_compile (e : Encoder) (t : Z) : Prop :=
  ∃ e1 cIndent e2 c,
    compileHead e t true = (e1, Ok cIndent) ∧ compileHead e1 t false = (e2, Ok c).

(** [compileHead] leaves the output buffer and the writer alone. *)
Definition compileHead_keeps_output : Prop :=
  ∀ e t b, buf (compileHead e t b).1 = buf e ∧ w (compileHead e t b).1 = w e.

(** Each slice is the beginning of the next one. *)
Fixpoint prefix_chain (l : list (list byte)) : Prop :=
  match l with
  | [] => True
  | x :: l' =>
      match l' with
      | [] => True
      | y :: _ => x `prefix_of` y
      end ∧ prefix_chain l'
  end.
End Engine.

(** A sample engine for values of type [bool]: the program is its data word,
    which is taken for the value itself, and running it emits the value with
    [encodeBool]. *)
Definition boolCopy (c : Z) : Z := c.
Definition boolSetPtr (_ : Z) (p : Z) : Z := p.
Definition boolCompileHead (e : Encoder Z) (_ : Z) (_ : bool) : Encoder Z * result Z :=
  (e, Ok 0).
Definition boolRun (e : Encoder Z) (c : Z) : Encoder Z * option error :=
  (encodeBool Z e (negb (c =? 0)), None).

(** A compiler that refuses every type, as [compileHead] does for a type it
    does not support. *)
Definition refuseCompileHead (e : Encoder Z) (_ : Z) (_ : bool) : Encoder Z * result Z :=
  (e, Err (errOther "unsupported type")).

(** The type descriptor address used for [bool] in the examples, and the two
    values of the type. *)
Definition boolType : Z := 4096.
Definition vTrue : interfaceHeader := mkHeader boolType 1.
Definition vFalse : interfaceHeader := mkHeader boolType 0.

(** The address of the descriptor of a channel type, and a value of it. *)
Definition chanType : Z := 8192.
Definition vChan : interfaceHeader := mkHeader chanType 0.

End Encode.

(** * Properties *)

(** ** Indexing *)
Section IndexFacts.
Context {A : Type}.
Implicit Types (l : list A) (i : Z).

Lemma index_Some_range l i x : index l i = Some x → 0 ≤ i < len l.
Proof.
  unfold index, len. destruct (Z.ltb_spec i 0) as [|Hi]; [done|].
  intros Hx%lookup_lt_Some. lia.
Qed.

Lemma index_in_range l i : 0 ≤ i < len l → ∃ x, index l i = Some x.
Proof.
  unfold index, len. intros Hi. destruct (Z.ltb_spec i 0); [lia|].
  apply lookup_lt_is_Some. lia.
Qed.

Lemma index_out_of_range l i : len l ≤ i → index l i = None.
Proof.
  unfold index, len. intros Hi. destruct (Z.ltb_spec i 0); [done|].
  apply lookup_ge_None. lia.
Qed.

Lemma index_app_l l1 l2 i : i < len l1 → index (l1 ++ l2) i = index l1 i.
Proof.
  unfold index, len. intros Hi. destruct (Z.ltb_spec i 0); [done|].
  apply lookup_app_l. lia.
Qed.

Lemma index_app_r l1 l2 i : len l1 ≤ i → index (l1 ++ l2) i = index l2 (i - len l1).
Proof.
  unfold index, len. intros Hi.
  destruct (Z.ltb_spec i 0); [lia|].
  destruct (Z.ltb_spec (i - Z.of_nat (length l1)) 0); [lia|].
  rewrite lookup_app_r by lia. f_equal. lia.
Qed.

Lemma len_app l1 l2 : len (l1 ++ l2) = len l1 + len l2.
Proof. unfold len. rewrite length_app. lia. Qed.

Lemma len_nonneg l : 0 ≤ len l.
Proof. unfold len. lia. Qed.
End IndexFacts.

(** ** decode_float.go *)
Section FloatFacts.
Import DecodeFloat.

Example decodeByte_number :
  decodeByte (bytes " -12.5e+3, 4") 0 = Ok (bytes "-12.5e+3", 9).
Proof. reflexivity. Qed.

Example decodeByte_letter :
  decodeByte (bytes "  x") 0 = Err (errUnexpectedEndOfJSON "float" 2).
Proof. reflexivity. Qed.

Example floatBytes_refill :
  floatBytes (newStream (bytes "12") [bytes "34"; bytes "5 "])
  = Some (Ok (mkStream (bytes "12345 " ++ [nul]) 5 0 [], bytes "12345")).
Proof. reflexivity. Qed.

Example decodeStreamByte_refill :
  snd <$> decodeStreamByte (newStream (bytes " ") [bytes " -1"; bytes ".5,"])
  = Some (Ok (bytes "-1.5")).
Proof. reflexivity. Qed.

Example decodeStreamByte_letter :
  snd <$> decodeStreamByte (newStream (bytes " ") [bytes " x1"])
  = Some (Err (errUnexpectedEndOfJSON "float" 2)).
Proof. reflexivity. Qed.

Example decodeStreamByte_end :
  snd <$> decodeStreamByte (newStream (bytes " ") [bytes " "])
  = Some (Err (errUnexpectedEndOfJSON "float" 2)).
Proof. reflexivity. Qed.

Lemma floatTable_length : length floatTable = 256%nat.
Proof. reflexivity. Qed.

(** The table holds [true] at the digits and at [.], [e], [E], [+], and
    [false] at the other 242 bytes. *)
Lemma inFloatTable_eq c :
  inFloatTable c
  = isDigit c || Byte.eqb c "." || Byte.eqb c "e" || Byte.eqb c "E" || Byte.eqb c "+".
Proof. destruct c; reflexivity. Qed.

Lemma isNumberStart_eq c : isNumberStart c = Byte.eqb c "-" || isDigit c.
Proof. destruct c; reflexivity. Qed.

Lemma isNumberStart_not_space c : isNumberStart c = true → isSpace c = false.
Proof. destruct c; simpl; congruence. Qed.

Lemma inFloatTable_iff c :
  inFloatTable c = true ↔
  isDigit c = true ∨ c = "."%byte ∨ c = "e"%byte ∨ c = "E"%byte ∨ c = "+"%byte.
Proof.
  rewrite inFloatTable_eq, !orb_true_iff.
  assert (Heq : ∀ a b : byte, Byte.eqb a b = true ↔ a = b).
  { intros a b. split; [apply Byte.byte_dec_bl|apply Byte.byte_dec_lb]. }
  rewrite !Heq. tauto.
Qed.

(** The inner loop of [decodeByte] stops at the first byte outside the
    table, or at the end of the buffer. *)
Lemma decodeByte_extend_spec n buf cursor :
  0 ≤ cursor ≤ len buf →
  n = Z.to_nat (len buf - cursor) →
  ∃ stop,
    decodeByte_extend n buf cursor = Ok stop ∧
    cursor ≤ stop ≤ len buf ∧
    (∀ i, cursor ≤ i < stop → ∃ b, index buf i = Some b ∧ inFloatTable b = true) ∧
    (stop = len buf ∨ ∃ b, index buf stop = Some b ∧ inFloatTable b = false).
Proof.
  revert cursor. induction n as [|n IH]; intros cursor Hc Hn; simpl.
  - exists cursor. split; [done|]. split; [lia|]. split; [lia|]. left. lia.
  - destruct (index_in_range buf cursor) as [c Hx]; [lia|]. rewrite Hx.
    destruct (inFloatTable c) eqn:Ht.
    + destruct (IH (cursor + 1)) as (stop & Hs & Hr & Hin & Hend); [lia|lia|].
      exists stop. split; [done|]. split; [lia|]. split; [|done].
      intros i Hi. destruct (decide (i = cursor)) as [->|Hne]; [eauto|].
      apply Hin. lia.
    + exists cursor. split; [done|]. split; [lia|]. split; [lia|]. eauto.
Qed.

(** A scan of the buffer that begins at [-] or at a digit returns the bytes
    from there to the first later byte outside the table. *)
Lemma decodeByte_number_spec buf cursor c :
  index buf cursor = Some c →
  isNumberStart c = true →
  ∃ stop,
    decodeByte buf cursor = Ok (slice buf cursor stop, stop) ∧
    cursor < stop ≤ len buf ∧
    (∀ i, cursor < i < stop → ∃ b, index buf i = Some b ∧ inFloatTable b = true) ∧
    (stop = len buf ∨ ∃ b, index buf stop = Some b ∧ inFloatTable b = false).
Proof.
  intros Hx Hstart. pose proof (index_Some_range _ _ _ Hx) as Hr.
  unfold decodeByte.
  destruct (Z.to_nat (len buf - cursor)) as [|n] eqn:Hn; [lia|].
  simpl. rewrite Hx, (isNumberStart_not_space _ Hstart), Hstart.
  destruct (decodeByte_extend_spec n buf (cursor + 1)) as (stop & Hs & Hr' & Hin & Hend);
    [lia|lia|].
  rewrite Hs. exists stop. split; [done|]. split; [lia|]. split; [|done].
  intros i Hi. apply Hin. lia.
Qed.

(** The outer loop of [decodeByte] skips white space; at a byte that is
    neither white space nor the start of a number, and at the end of the
    buffer, it returns [errUnexpectedEndOfJSON] with that position. *)
Lemma decodeByte_loop_unexpected n buf cursor j :
  0 ≤ cursor ≤ j →
  j ≤ len buf →
  n = Z.to_nat (len buf - cursor) →
  (∀ i, cursor ≤ i < j → ∃ b, index buf i = Some b ∧ isSpace b = true) →
  (∀ c, index buf j = Some c → isSpace c = false ∧ isNumberStart c = false) →
  decodeByte_loop n buf cursor = Err (errUnexpectedEndOfJSON "float" j).
Proof.
  revert cursor. induction n as [|n IH]; intros cursor Hc Hj Hn Hsp Hbad; simpl.
  - do 3 f_equal. lia.
  - destruct (index_in_range buf cursor) as [c Hx]; [lia|]. rewrite Hx.
    destruct (decide (cursor = j)) as [->|Hne].
    + destruct (Hbad c Hx) as [-> ->]. done.
    + destruct (Hsp cursor) as (b & Hb & Hs); [lia|].
      rewrite Hx in Hb. injection Hb as <-. rewrite Hs.
      apply IH; [lia|lia|lia| |done]. intros i Hi. apply Hsp. lia.
Qed.
(** *** The stream scanner *)

Lemma slice_app_l (l1 l2 : list byte) lo hi :
  0 ≤ lo → hi ≤ len l1 → slice (l1 ++ l2) lo hi = slice l1 lo hi.
Proof.
  unfold slice, len. intros Hlo Hhi.
  destruct (Z_le_gt_dec lo hi) as [Hle|Hgt].
  - rewrite drop_app_le by lia. apply take_app_le. rewrite length_drop. lia.
  - by replace (Z.to_nat (hi - lo)) with O by lia.
Qed.

Lemma sentinel_buf s :
  sentinel_terminated s → buf s = removelast (buf s) ++ [nul].
Proof. intros [data ->]. by rewrite removelast_last. Qed.

Lemma sentinel_len s :
  sentinel_terminated s → len (buf s) = len (removelast (buf s)) + 1.
Proof. intros Hs. rewrite (sentinel_buf s Hs) at 1. by rewrite len_app. Qed.

Lemma len_stream_input s :
  len (stream_input s) = len (removelast (buf s)) + len (avail (r s)).
Proof. apply len_app. Qed.

(** At a position before the sentinel the current byte is the byte of the
    input; at the sentinel it is [nul]. *)
Lemma char_data s :
  sentinel_terminated s → cursor s < len (buf s) - 1 →
  char s = index (stream_input s) (cursor s).
Proof.
  intros Hs Hc. unfold char, stream_input. rewrite (sentinel_buf s Hs) at 1.
  rewrite (sentinel_len s Hs) in Hc. rewrite !index_app_l by lia. done.
Qed.

Lemma char_sentinel s :
  sentinel_terminated s → cursor s = len (buf s) - 1 → char s = Some nul.
Proof.
  intros Hs Hc. unfold char. rewrite (sentinel_len s Hs) in Hc.
  rewrite (sentinel_buf s Hs), index_app_r by lia.
  replace (cursor s - len (removelast (buf s))) with 0 by lia. done.
Qed.

Lemma read_more s s' :
  read s = (true, s') → sentinel_terminated s → cursor s ≤ len (buf s) →
  sentinel_terminated s' ∧ cursor s' = cursor s ∧ offset s' = offset s ∧
  stream_input s' = stream_input s ∧ len (buf s) < len (buf s') ∧
  (Z.to_nat (len (buf s') - cursor s) + pending (r s')
   < Z.to_nat (len (buf s) - cursor s) + pending (r s))%nat.
Proof.
  unfold read. destruct (r s) as [|[d err] rd] eqn:Hr; simpl; [by intros [=]|].
  destruct d as [|b d]; intros [= <-] Hs Hc; simpl.
  split; [by eexists (_ ++ _ :: _); rewrite <- app_assoc|].
  split; [done|]. split; [done|]. split.
  { unfold stream_input. simpl. rewrite Hr. simpl.
    rewrite (app_assoc _ (b :: d) [nul]), removelast_last.
    by rewrite <- app_assoc. }
  rewrite (sentinel_len s Hs) in Hc |- *. rewrite !len_app.
  unfold len in *. rewrite length_cons, length_app. simpl length. lia.
Qed.

Lemma read_no_more s s' :
  read s = (false, s') →
  buf s' = buf s ∧ cursor s' = cursor s ∧ offset s' = offset s ∧ avail (r s) = [].
Proof.
  unfold read. destruct (r s) as [|[d err] rd] eqn:Hr; simpl.
  - by intros [= <-].
  - destruct d as [|b d]; intros [= <-]; simpl; done.
Qed.

Lemma inFloatTable_nul : inFloatTable nul = false.
Proof. reflexivity. Qed.

(** The loop of [floatBytes], started on a byte of the input, ends at the
    first later position of the whole input at which there is no byte of
    the table, refilling on the way as often as needed. *)
Lemma floatBytes_loop_spec fuel s stop :
  sentinel_terminated s →
  0 ≤ cursor s → cursor s < len (buf s) - 1 →
  (floatBytes_fuel s ≤ fuel)%nat →
  cursor s < stop ≤ len (stream_input s) →
  (∀ i, cursor s < i < stop →
        ∃ b, index (stream_input s) i = Some b ∧ inFloatTable b = true) →
  (∀ b, index (stream_input s) stop = Some b → inFloatTable b = false) →
  ∃ s', floatBytes_loop fuel s = Some (Ok s') ∧
        cursor s' = stop ∧ offset s' = offset s ∧
        removelast (buf s') `prefix_of` stream_input s ∧
        sentinel_terminated s' ∧ stop < len (buf s').
Proof.
  revert s. induction fuel as [|fuel IH]; intros s Hs H0 Hc Hfuel Hstop Hin Hout.
  { unfold floatBytes_fuel in Hfuel. lia. }
  simpl. set (s1 := set_cursor s (cursor s + 1)).
  assert (Hs1 : sentinel_terminated s1) by done.
  assert (Hi1 : stream_input s1 = stream_input s) by done.
  destruct (index_in_range (buf s) (cursor s + 1)) as [c0 Hc0]; [lia|].
  change (char s1) with (index (buf s) (cursor s + 1)). rewrite Hc0.
  assert (Hdata : cursor s + 1 < len (buf s) - 1 →
                  index (stream_input s) (cursor s + 1) = Some c0).
  { intros Hlt. rewrite <- Hc0. symmetry. apply (char_data s1 Hs1). simpl. lia. }
  assert (Hnul : cursor s + 1 = len (buf s) - 1 → c0 = nul).
  { intros Heq. pose proof (char_sentinel s1 Hs1) as Hch.
    unfold char in Hch. simpl in Hch. rewrite Hc0 in Hch.
    by injection (Hch Heq). }
  assert (Hrefill : ∀ s2, read s1 = (true, s2) →
    ∃ s', floatBytes_loop fuel (set_cursor s2 (cursor s2 - 1)) = Some (Ok s') ∧
          cursor s' = stop ∧ offset s' = offset s ∧
          removelast (buf s') `prefix_of` stream_input s ∧
          sentinel_terminated s' ∧ stop < len (buf s')).
  { intros s2 Hr.
    destruct (read_more s1 s2 Hr Hs1) as (Hs2 & Hc2 & Ho2 & Hi2 & Hl2 & Hf2);
      [simpl; lia|].
    simpl in Hc2, Hl2, Hf2.
    assert (Hi3 : stream_input (set_cursor s2 (cursor s2 - 1)) = stream_input s).
    { change (stream_input (set_cursor s2 (cursor s2 - 1))) with (stream_input s2).
      by rewrite Hi2. }
    destruct (IH (set_cursor s2 (cursor s2 - 1))) as (s' & Hl & Hcs & Hos & His & Hss);
      [done|simpl; lia|simpl; lia| | | | |].
    - unfold floatBytes_fuel in *. simpl. rewrite Hc2.
      replace (cursor s + 1 - 1) with (cursor s) by lia. lia.
    - rewrite Hi3. simpl. lia.
    - rewrite Hi3. simpl. intros i Hi. apply Hin. lia.
    - by rewrite Hi3.
    - exists s'. split; [done|]. split; [done|]. split; [by rewrite Hos|].
      split; [|done]. by rewrite <- Hi3. }
  assert (Hpre : removelast (buf s) `prefix_of` stream_input s).
  { by eexists. }
  destruct (inFloatTable c0) eqn:Ht.
  - (* a byte of the table: the scan goes on *)
    assert (Hlt : cursor s + 1 < len (buf s) - 1).
    { destruct (decide (cursor s + 1 = len (buf s) - 1)) as [Heq|]; [|lia].
      rewrite (Hnul Heq), inFloatTable_nul in Ht. done. }
    assert (Hne : cursor s + 1 ≠ stop).
    { intros <-. rewrite (Hout c0 (Hdata Hlt)) in Ht. done. }
    destruct (IH s1) as (s' & Hl & Hrest); [done|simpl; lia|simpl; lia| | | | |].
    + unfold floatBytes_fuel in *. simpl. lia.
    + simpl. rewrite Hi1. lia.
    + simpl. rewrite Hi1. intros i Hi. apply Hin. lia.
    + by rewrite Hi1.
    + exists s'. by rewrite Hi1 in Hrest.
  - (* a byte outside the table: the scan ends here, unless a refill
       delivers more *)
    assert (Hdone : cursor s + 1 < len (buf s) - 1 → cursor s + 1 = stop).
    { intros Hlt. destruct (decide (cursor s + 1 = stop)) as [|Hne]; [done|].
      destruct (Hin (cursor s + 1)) as (b & Hb & Hbt); [lia|].
      rewrite (Hdata Hlt) in Hb. injection Hb as <-. congruence. }
    destruct (Byte.eqb c0 nul) eqn:Hz.
    + destruct (read s1) as [[|] s2] eqn:Hr.
      * by apply Hrefill.
      * destruct (read_no_more s1 s2 Hr) as (Hb2 & Hc2 & Ho2 & Hav).
        change (r s1) with (r s) in Hav. change (buf s1) with (buf s) in Hb2.
        change (cursor s1) with (cursor s + 1) in Hc2.
        change (offset s1) with (offset s) in Ho2.
        assert (Hend : cursor s + 1 = stop).
        { destruct (decide (cursor s + 1 < len (buf s) - 1)) as [Hlt|Hge];
            [by apply Hdone|].
          rewrite len_stream_input, Hav in Hstop.
          rewrite (sentinel_len s Hs) in Hc, Hge. unfold len in Hstop at 2.
          simpl in Hstop. lia. }
        exists s2. split; [done|]. split; [by rewrite Hc2|].
        split; [by rewrite Ho2|]. split; [by rewrite Hb2|].
        split; [by destruct Hs as [data Hd]; exists data; rewrite Hb2|].
        rewrite Hb2. lia.
    + assert (Hlt : cursor s + 1 < len (buf s) - 1).
      { destruct (decide (cursor s + 1 = len (buf s) - 1)) as [Heq|]; [|lia].
        rewrite (Hnul Heq) in Hz. done. }
      exists s1. split; [done|]. split; [by apply Hdone|].
      split; [done|]. split; [done|]. split; [done|]. simpl. lia.
Qed.
Lemma isSpace_nul : isSpace nul = false.
Proof. reflexivity. Qed.

Lemma isNumberStart_nul : isNumberStart nul = false.
Proof. reflexivity. Qed.

Lemma eqb_nul c : Byte.eqb c nul = true ↔ c = nul.
Proof. split; [apply Byte.byte_dec_bl|apply Byte.byte_dec_lb]. Qed.

(** The byte under the cursor is a byte of the input unless it is [nul]. *)
Lemma char_not_nul s c :
  sentinel_terminated s → char s = Some c → c ≠ nul →
  0 ≤ cursor s < len (buf s) - 1 ∧ index (stream_input s) (cursor s) = Some c.
Proof.
  intros Hs Hc Hn. pose proof (index_Some_range _ _ _ Hc) as Hr.
  assert (Hlt : cursor s < len (buf s) - 1).
  { destruct (decide (cursor s = len (buf s) - 1)) as [Heq|]; [|lia].
    rewrite (char_sentinel s Hs Heq) in Hc. congruence. }
  split; [lia|]. by rewrite <- (char_data s Hs Hlt).
Qed.

(** [floatBytes], called on [-] or on a digit, returns the bytes of the
    input from there to the first later byte outside the table, or to the
    end of the input, across all the refills this takes. *)
Lemma floatBytes_number_spec s c :
  sentinel_terminated s →
  char s = Some c →
  isNumberStart c = true →
  ∃ s' stop,
    floatBytes s = Some (Ok (s', slice (stream_input s) (cursor s) stop)) ∧
    cursor s' = stop ∧
    cursor s < stop ≤ len (stream_input s) ∧
    (∀ i, cursor s < i < stop →
          ∃ b, index (stream_input s) i = Some b ∧ inFloatTable b = true) ∧
    (stop = len (stream_input s) ∨
     ∃ b, index (stream_input s) stop = Some b ∧ inFloatTable b = false).
Proof.
  intros Hs Hc Hstart.
  destruct (char_not_nul s c Hs Hc) as [Hr Hx].
  { intros ->. by rewrite isNumberStart_nul in Hstart. }
  pose proof (index_Some_range _ _ _ Hx) as Hr'.
  destruct (decodeByte_extend_spec
              (Z.to_nat (len (stream_input s) - (cursor s + 1)))
              (stream_input s) (cursor s + 1))
    as (stop & _ & Hstop & Hin & Hend); [lia|done|].
  destruct (floatBytes_loop_spec (floatBytes_fuel s) s stop)
    as (s' & Hl & Hcs & _ & [k Hk] & Hs' & Hlen); [done|lia|lia|done|lia| | |].
  { intros i Hi. apply Hin. lia. }
  { intros b Hb. destruct Hend as [->|(b' & Hb' & Ht)].
    - rewrite index_out_of_range in Hb by lia. done.
    - congruence. }
  exists s', stop. split.
  - unfold floatBytes, floatBytes_with. rewrite Hl. do 3 f_equal.
    rewrite Hcs. rewrite (sentinel_len s' Hs') in Hlen.
    rewrite (sentinel_buf s' Hs'), slice_app_l by lia.
    rewrite Hk, slice_app_l by lia. done.
  - split; [done|]. split; [lia|]. split; [|done].
    intros i Hi. apply Hin. lia.
Qed.

(** [decodeStreamByte] skips white space, refilling on the way; at a byte
    of the input that is neither white space nor the start of a number,
    and at the end of the input, it goes to [ERROR] and returns
    [errUnexpectedEndOfJSON] with the total offset of that position. *)
Lemma decodeStreamByte_loop_unexpected fuel s j :
  sentinel_terminated s →
  0 ≤ cursor s ≤ j → cursor s < len (buf s) → j ≤ len (stream_input s) →
  (floatBytes_fuel s ≤ fuel)%nat →
  (∀ i, cursor s ≤ i < j →
        ∃ b, index (stream_input s) i = Some b ∧ isSpace b = true) →
  (∀ c, index (stream_input s) j = Some c →
        isSpace c = false ∧ isNumberStart c = false) →
  ∃ s', decodeStreamByte_loop fuel s
        = Some (s', Err (errUnexpectedEndOfJSON "float" (offset s + j))).
Proof.
  revert s. induction fuel as [|fuel IH]; intros s Hs Hc Hb Hj Hfuel Hsp Hbad.
  { unfold floatBytes_fuel in Hfuel. lia. }
  simpl. destruct (index_in_range (buf s) (cursor s)) as [c0 Hc0]; [lia|].
  change (char s) with (index (buf s) (cursor s)). rewrite Hc0.
  assert (Hinp : c0 ≠ nul → index (stream_input s) (cursor s) = Some c0).
  { intros Hn. by apply (char_not_nul s c0 Hs Hc0 Hn). }
  assert (Hhere : isSpace c0 = false →
                  (c0 ≠ nul ∨ avail (r s) = []) → cursor s = j).
  { intros Hns Hcase. destruct (decide (cursor s = j)) as [|Hne]; [done|].
    destruct (Hsp (cursor s)) as (b & Hxb & Hsb); [lia|].
    destruct (decide (c0 = nul)) as [->|Hn].
    - destruct Hcase as [|Hav]; [done|].
      destruct (decide (cursor s < len (buf s) - 1)) as [Hlt|Hge].
      + rewrite <- (char_data s Hs Hlt) in Hxb. unfold char in Hxb.
        rewrite Hc0 in Hxb. injection Hxb as <-. by rewrite isSpace_nul in Hsb.
      + rewrite index_out_of_range in Hxb; [done|].
        rewrite len_stream_input, Hav. rewrite (sentinel_len s Hs) in Hb, Hge.
        unfold len at 2. simpl. lia.
    - rewrite (Hinp Hn) in Hxb. injection Hxb as <-. congruence. }
  destruct (isSpace c0) eqn:Hs0.
  - (* white space: the cursor advances *)
    assert (Hn : c0 ≠ nul) by (intros ->; by rewrite isSpace_nul in Hs0).
    destruct (char_not_nul s c0 Hs Hc0 Hn) as [Hr Hx].
    assert (Hlt : cursor s < j).
    { destruct (decide (cursor s = j)) as [Heq|]; [|lia].
      rewrite Heq in Hx. destruct (Hbad c0 Hx). congruence. }
    destruct (IH (set_cursor s (cursor s + 1))) as [s' Hl];
      [done|simpl; lia|simpl; lia|done| | |done|].
    + unfold floatBytes_fuel in *. simpl. lia.
    + intros i Hi. apply Hsp. simpl in Hi. lia.
    + exists s'. by rewrite Hl.
  - destruct (isNumberStart c0) eqn:Hn0.
    + (* the start of a number cannot be under the cursor *)
      assert (Hn : c0 ≠ nul) by (intros ->; by rewrite isNumberStart_nul in Hn0).
      pose proof (Hinp Hn) as Hx.
      rewrite (Hhere eq_refl (or_introl Hn)) in Hx.
      destruct (Hbad c0 Hx). congruence.
    + destruct (Byte.eqb c0 nul) eqn:Hz.
      * destruct (read s) as [[|] s2] eqn:Hr.
        -- destruct (read_more s s2 Hr Hs) as (Hs2 & Hc2 & Ho2 & Hi2 & Hl2 & Hf2);
             [lia|].
           destruct (IH s2) as [s' Hl]; [done|lia|lia|by rewrite Hi2| | | |].
           ++ unfold floatBytes_fuel in *. rewrite Hc2. lia.
           ++ rewrite Hi2, Hc2. done.
           ++ by rewrite Hi2.
           ++ exists s'. by rewrite Hl, Ho2.
        -- destruct (read_no_more s s2 Hr) as (Hb2 & Hc2 & Ho2 & Hav).
           exists s2. unfold totalOffset. rewrite Ho2, Hc2.
           by rewrite (Hhere eq_refl (or_intror Hav)).
      * exists s. unfold totalOffset.
        assert (Hn : c0 ≠ nul).
        { intros ->. by rewrite (proj2 (eqb_nul nul)) in Hz. }
        by rewrite (Hhere eq_refl (or_introl Hn)).
Qed.
Lemma decodeStreamByte_unexpected s j :
  sentinel_terminated s →
  0 ≤ cursor s ≤ j → cursor s < len (buf s) → j ≤ len (stream_input s) →
  (∀ i, cursor s ≤ i < j →
        ∃ b, index (stream_input s) i = Some b ∧ isSpace b = true) →
  (∀ c, index (stream_input s) j = Some c →
        isSpace c = false ∧ isNumberStart c = false) →
  ∃ s', decodeStreamByte s
        = Some (s', Err (errUnexpectedEndOfJSON "float" (offset s + j))).
Proof.
  intros. by apply decodeStreamByte_loop_unexpected.
Qed.

(** *** Termination of the stream loops *)

Lemma len_removelast (l : list byte) : l ≠ [] → len (removelast l) = len l - 1.
Proof.
  intros Hne. destruct (exists_last Hne) as (l' & a & ->).
  rewrite removelast_last, len_app. unfold len. simpl. lia.
Qed.

(** A refill that delivers bytes pays for them out of [pending]. *)
Lemma read_more_fuel s s' :
  read s = (true, s') → 0 ≤ cursor s < len (buf s) →
  cursor s' = cursor s ∧
  (Z.to_nat (len (buf s') - cursor s) + pending (r s')
   < Z.to_nat (len (buf s) - cursor s) + pending (r s))%nat.
Proof.
  unfold read. destruct (r s) as [|[d err] rd] eqn:Hr; simpl; [by intros [=]|].
  destruct d as [|b d]; intros [= <-] Hc; simpl. split; [done|].
  assert (Hne : buf s ≠ []).
  { intros Hnil. rewrite Hnil in Hc. unfold len in Hc. simpl in Hc. lia. }
  rewrite len_app, (len_removelast _ Hne).
  unfold len in *. rewrite length_cons, length_app. simpl length. lia.
Qed.

(** The fuel [floatBytes_fuel] suffices for the loop of [floatBytes] on every
    stream: the loop returns, normally or with a panic. *)
Lemma floatBytes_loop_enough fuel s :
  (floatBytes_fuel s ≤ fuel)%nat → is_Some (floatBytes_loop fuel s).
Proof.
  revert s. induction fuel as [|fuel IH]; intros s Hfuel.
  { unfold floatBytes_fuel in Hfuel. lia. }
  simpl. set (s1 := set_cursor s (cursor s + 1)).
  destruct (char s1) as [c0|] eqn:Hc0; [|eauto].
  pose proof (index_Some_range _ _ _ Hc0) as Hr. simpl in Hr.
  destruct (inFloatTable c0).
  - apply IH. unfold floatBytes_fuel in *. simpl. lia.
  - destruct (Byte.eqb c0 nul); [|eauto].
    destruct (read s1) as [[|] s2] eqn:Hrd; [|eauto].
    destruct (read_more_fuel s1 s2 Hrd) as [Hc2 Hf2]; [done|].
    simpl in Hc2, Hf2.
    apply IH. unfold floatBytes_fuel in *. simpl. rewrite Hc2.
    replace (cursor s + 1 - 1) with (cursor s) by lia. lia.
Qed.

Lemma floatBytes_returns s : is_Some (floatBytes s).
Proof.
  unfold floatBytes, floatBytes_with.
  destruct (floatBytes_loop_enough (floatBytes_fuel s) s) as [[s'|e|] ->]; eauto.
Qed.

(** Likewise for the loop of [decodeStreamByte]. *)
Lemma decodeStreamByte_loop_enough fuel s :
  (floatBytes_fuel s ≤ fuel)%nat → is_Some (decodeStreamByte_loop fuel s).
Proof.
  revert s. induction fuel as [|fuel IH]; intros s Hfuel.
  { unfold floatBytes_fuel in Hfuel. lia. }
  simpl. destruct (char s) as [c0|] eqn:Hc0; [|eauto].
  pose proof (index_Some_range _ _ _ Hc0) as Hr.
  destruct (isSpace c0).
  - apply IH. unfold floatBytes_fuel in *. simpl. lia.
  - destruct (isNumberStart c0).
    + destruct (floatBytes_returns s) as [[[s' num]|e|] ->]; eauto.
    + destruct (Byte.eqb c0 nul); [|eauto].
      destruct (read s) as [[|] s2] eqn:Hrd; [|eauto].
      destruct (read_more_fuel s s2 Hrd) as [Hc2 Hf2]; [done|].
      apply IH. unfold floatBytes_fuel in *. rewrite Hc2. lia.
Qed.

Lemma decodeStreamByte_returns s : is_Some (decodeStreamByte s).
Proof. by apply decodeStreamByte_loop_enough. Qed.

(** C8 (as stated, refuted).  On a blank followed by the letter x the
    scanners return [errUnexpectedEndOfJSON], an error of the class
    UnexpectedEOF and not of the class UnexpectedToken; it is the very
    error value they return on a blank followed by nothing. *)
Lemma unexpected_byte_is_reported_as_end_of_JSON :
  decodeByte (bytes " x") 0 = Err (errUnexpectedEndOfJSON "float" 1) ∧
  snd <$> decodeStreamByte (newStream (bytes " x") [])
    = Some (Err (errUnexpectedEndOfJSON "float" 1)) ∧
  classOf (errUnexpectedEndOfJSON "float" 1) = UnexpectedEOF ∧
  classOf (errUnexpectedEndOfJSON "float" 1) ≠ UnexpectedToken ∧
  decodeByte (bytes " x") 0 = decodeByte (bytes " ") 0 ∧
  snd <$> decodeStreamByte (newStream (bytes " x") [])
    = snd <$> decodeStreamByte (newStream (bytes " ") []).
Proof. repeat split; try reflexivity. discriminate. Qed.

(** C8 (amended).  When the first byte at or after the cursor that is not
    white space is neither [-] nor a digit, both numeric scanners fail
    with [errUnexpectedEndOfJSON("float", offset)], [offset] being the
    position of that byte; this error belongs to the class UnexpectedEOF.
    The buffer scanner returns the same error, with the length of the
    buffer as offset, when only white space is left. *)
Theorem numeric_scanner_unexpected_byte (input : list byte) (pos j : Z) (c : byte) :
  0 ≤ pos ≤ j →
  (∀ i, pos ≤ i < j → ∃ b, index input i = Some b ∧ isSpace b = true) →
  index input j = Some c →
  isSpace c = false →
  isNumberStart c = false →
  decodeByte input pos = Err (errUnexpectedEndOfJSON "float" j) ∧
  (∀ s, sentinel_terminated s → stream_input s = input → cursor s = pos →
        pos < len (buf s) →
        ∃ s', decodeStreamByte s
              = Some (s', Err (errUnexpectedEndOfJSON "float" (offset s + j)))) ∧
  classOf (errUnexpectedEndOfJSON "float" j) = UnexpectedEOF ∧
  (∀ blank, (∀ i, 0 ≤ i < len blank → ∃ b, index blank i = Some b ∧ isSpace b = true) →
            decodeByte blank 0 = Err (errUnexpectedEndOfJSON "float" (len blank))).
Proof.
  intros Hpos Hsp Hx Hs Hn. pose proof (index_Some_range _ _ _ Hx) as Hr.
  assert (Hbad : ∀ c', index input j = Some c' →
                       isSpace c' = false ∧ isNumberStart c' = false).
  { intros c' Hc'. rewrite Hx in Hc'. by injection Hc' as <-. }
  split; [|split; [|split]].
  - unfold decodeByte.
    apply decodeByte_loop_unexpected; [lia|lia|done|done|done].
  - intros s Hsent <- <- Hlen.
    apply decodeStreamByte_unexpected; [done|lia|lia|lia|done|done].
  - done.
  - intros blank Hblank. unfold decodeByte.
    apply decodeByte_loop_unexpected; [pose proof (len_nonneg blank); lia|lia|f_equal; lia|done|].
    intros c' Hc'. rewrite index_out_of_range in Hc' by lia. done.
Qed.

Lemma numeric_scanner_unexpected_byte_witness :
  decodeByte (bytes " x") 0 = Err (errUnexpectedEndOfJSON "float" 1).
Proof.
  apply (numeric_scanner_unexpected_byte (bytes " x") 0 1 "x"%byte).
  - lia.
  - intros i Hi. assert (i = 0) as -> by lia. eexists. split; reflexivity.
  - reflexivity.
  - reflexivity.
  - reflexivity.
Defined.

(** C9.  The table has 256 entries and holds [true] exactly at the ten
    digits and at [.], [e], [E] and [+]; [-] is not in it, though it may
    start a number.  A scan that begins at [-] or at a digit, in a buffer
    ([decodeByte]) or in a stream ([floatBytes]), returns the bytes from
    there up to the first later byte that is not in the table, or up to
    the end of the input. *)
Theorem floatTable_extends_numeric_token :
  length floatTable = 256%nat ∧
  (∀ c, inFloatTable c = true ↔
        isDigit c = true ∨ c = "."%byte ∨ c = "e"%byte ∨ c = "E"%byte ∨ c = "+"%byte) ∧
  inFloatTable "-" = false ∧
  isNumberStart "-" = true ∧
  (∀ input pos c,
      index input pos = Some c →
      isNumberStart c = true →
      ∃ stop,
        decodeByte input pos = Ok (slice input pos stop, stop) ∧
        pos < stop ≤ len input ∧
        (∀ i, pos < i < stop → ∃ b, index input i = Some b ∧ inFloatTable b = true) ∧
        (stop = len input ∨ ∃ b, index input stop = Some b ∧ inFloatTable b = false)) ∧
  (∀ s c,
      sentinel_terminated s →
      char s = Some c →
      isNumberStart c = true →
      ∃ s' stop,
        floatBytes s = Some (Ok (s', slice (stream_input s) (cursor s) stop)) ∧
        cursor s' = stop ∧
        cursor s < stop ≤ len (stream_input s) ∧
        (∀ i, cursor s < i < stop →
              ∃ b, index (stream_input s) i = Some b ∧ inFloatTable b = true) ∧
        (stop = len (stream_input s) ∨
         ∃ b, index (stream_input s) stop = Some b ∧ inFloatTable b = false)).
Proof.
  split; [apply floatTable_length|].
  split; [apply inFloatTable_iff|].
  split; [reflexivity|]. split; [reflexivity|].
  split.
  - intros input pos c. apply decodeByte_number_spec.
  - intros s c. apply floatBytes_number_spec.
Qed.

Lemma floatTable_extends_numeric_token_witness :
  (∃ stop,
     decodeByte (bytes "-1.5e+3-4") 0 = Ok (slice (bytes "-1.5e+3-4") 0 stop, stop) ∧
     0 < stop ≤ 9) ∧
  (∃ s' stop,
     floatBytes (newStream (bytes "12") [bytes "34"; bytes "5 "])
     = Some (Ok (s', slice (bytes "12345 ") 0 stop))).
Proof.
  destruct floatTable_extends_numeric_token as (_ & _ & _ & _ & Hbuf & Hstream).
  split.
  - destruct (Hbuf (bytes "-1.5e+3-4") 0 "-"%byte) as (stop & Hd & Hr & _);
      [reflexivity|reflexivity|].
    exists stop. split; [exact Hd|exact Hr].
  - destruct (Hstream (newStream (bytes "12") [bytes "34"; bytes "5 "]) "1"%byte)
      as (s' & stop & Hf & _); [by exists (bytes "12")|reflexivity|reflexivity|].
    exists s', stop. exact Hf.
Defined.
End FloatFacts.

(** ** The compiler of the decoder *)
Section CompilerFacts.
Import Decode.
Variable ToLower : string → string.
Variable Size : rtype → Z.

(** Induction on type descriptors that reaches the types of the fields. *)
Lemma rtype_fields_ind (P : rtype → Prop) :
  (∀ b, P (Basic b)) →
  (∀ e, P e → P (PtrTo e)) →
  (∀ e, P e → P (SliceOf e)) →
  (∀ n e, P e → P (ArrayOf n e)) →
  (∀ k e, P k → P e → P (MapOf k e)) →
  (∀ e, P e → P (ChanOf e)) →
  (∀ name fields, Forall (λ f, P (Type_ f)) fields → P (StructOf name fields)) →
  ∀ typ, P typ.
Proof.
  intros Hb Hp Hs Ha Hm Hc Hst.
  fix IH 1. intros [b|e|e|n e|k e|e|name fields].
  - apply Hb.
  - apply Hp, IH.
  - apply Hs, IH.
  - apply Ha, IH.
  - apply Hm; apply IH.
  - apply Hc, IH.
  - apply Hst. induction fields as [|[nm pk an tg ty off] fields IHf].
    + constructor.
    + constructor; [apply IH | exact IHf].
Qed.

Lemma compileStruct_loop_total (cmp : rtype → result (option decoder)) fields :
  Forall (λ f, ∃ d, cmp (Type_ f) = Ok d) fields →
  ∀ m0, ∃ m, compileStruct_loop ToLower cmp fields m0 = Ok m.
Proof.
  induction 1 as [|f fields [d Hd] _ IH]; intros m0; simpl.
  - eauto.
  - destruct (isIgnoredStructField f); [apply IH|].
    rewrite Hd. apply IH.
Qed.

(** No path through [compile] returns an error: every [case] ends in
    [return ..., nil], and the fall-through is [return nil, nil]. *)
Lemma compile_total typ : ∃ d, compile ToLower Size typ = Ok d.
Proof.
  induction typ as [b|e [d IH]|e [d IH]|n e [d IH]|k e _ _|e _|name fields IH]
    using rtype_fields_ind; simpl.
  - destruct b; eauto.
  - rewrite IH. eauto.
  - rewrite IH. eauto.
  - rewrite IH. eauto.
  - eauto.
  - eauto.
  - destruct (compileStruct_loop_total _ _ IH ∅) as [m Hm]. rewrite Hm. eauto.
Qed.

Lemma lookup_three_inserts {V} (m : gmap string V) (k1 k2 k3 k : string) (x : V) :
  k ∈ [k1; k2; k3] →
  <[k3 := x]> (<[k2 := x]> (<[k1 := x]> m)) !! k = Some x.
Proof.
  intros Hk.
  destruct (decide (k3 = k)) as [->|H3]; [by rewrite lookup_insert_eq|].
  rewrite lookup_insert_ne by done.
  destruct (decide (k2 = k)) as [->|H2]; [by rewrite lookup_insert_eq|].
  rewrite lookup_insert_ne by done.
  destruct (decide (k1 = k)) as [->|H1]; [by rewrite lookup_insert_eq|].
  rewrite !elem_of_cons, elem_of_nil in Hk.
  destruct Hk as [?|[?|[?|[]]]]; congruence.
Qed.

Lemma lookup_three_inserts_ne {V} (m : gmap string V) (k1 k2 k3 k : string) (x : V) :
  k ∉ [k1; k2; k3] →
  <[k3 := x]> (<[k2 := x]> (<[k1 := x]> m)) !! k = m !! k.
Proof.
  rewrite !elem_of_cons, elem_of_nil. intros Hk.
  rewrite !lookup_insert_ne; [done|intros <-; apply Hk; tauto..].
Qed.

(** The invariant of the loop of [compileStruct]: a key that no remaining
    field files keeps its entry, and a key filed by a field and by none
    after it ends up with that field's set. *)
Lemma compileStruct_loop_spec (cmp : rtype → result (option decoder)) fields :
  Forall (λ f, ∃ d, cmp (Type_ f) = Ok d) fields →
  ∀ m0, ∃ m,
    compileStruct_loop ToLower cmp fields m0 = Ok m ∧
    (∀ k, (∀ f, f ∈ fields → isIgnoredStructField f = false → k ∉ keysOf ToLower f) →
          m !! k = m0 !! k) ∧
    (∀ pre f post d k,
        fields = pre ++ f :: post →
        isIgnoredStructField f = false →
        cmp (Type_ f) = Ok d →
        k ∈ keysOf ToLower f →
        (∀ g, g ∈ post → isIgnoredStructField g = false → k ∉ keysOf ToLower g) →
        m !! k = Some (mkFieldSet d (Offset f))).
Proof.
  induction 1 as [|f0 fields [d0 Hd0] _ IH]; intros m0; simpl.
  - exists m0. split; [done|]. split; [done|].
    intros pre f post d k Hnil. by destruct pre.
  - destruct (isIgnoredStructField f0) eqn:Hig.
    + destruct (IH m0) as (m & Hm & Hkeep & Hlast). exists m.
      split; [done|]. split.
      * intros k Hk. apply Hkeep. intros f Hf. apply Hk. by right.
      * intros pre f post d k Heq Hf Hd Hin Hpost.
        destruct pre as [|f1 pre]; simplify_eq/=; [congruence|].
        by eapply Hlast.
    + rewrite Hd0.
      destruct (IH (<[ToLower (keyNameOf f0) := mkFieldSet d0 (Offset f0)]>
                     (<[keyNameOf f0 := mkFieldSet d0 (Offset f0)]>
                        (<[Name f0 := mkFieldSet d0 (Offset f0)]> m0))))
        as (m & Hm & Hkeep & Hlast).
      exists m. split; [done|]. split.
      * intros k Hk. rewrite Hkeep.
        -- apply lookup_three_inserts_ne. apply (Hk f0); [by left|done].
        -- intros f Hf. apply Hk. by right.
      * intros pre f post d k Heq Hf Hd Hin Hpost.
        destruct pre as [|f1 pre]; simplify_eq/=.
        -- rewrite Hkeep by done. rewrite Hd0 in Hd. injection Hd as <-.
           by apply lookup_three_inserts.
        -- by eapply Hlast.
Qed.
End CompilerFacts.

Section StructFacts.
Import Decode.

Example Split_options : Split "x,omitempty" "," = ["x"; "omitempty"]%string.
Proof. reflexivity. Qed.

Example Split_empty : Split EmptyString "," = [EmptyString].
Proof. reflexivity. Qed.

Example keyNameOf_tagged :
  keyNameOf (mkStructField "Name" EmptyString false [("json", "n,omitempty")]
               (Basic TString) 0) = "n"%string.
Proof. reflexivity. Qed.

Example keyNameOf_options_only :
  keyNameOf (mkStructField "Name" EmptyString false [("json", ",omitempty")]
               (Basic TString) 0) = "Name"%string.
Proof. reflexivity. Qed.

Example isIgnoredStructField_private :
  isIgnoredStructField (mkStructField "name" "main" false [] (Basic TString) 0) = true.
Proof. reflexivity. Qed.

Example isIgnoredStructField_dash :
  isIgnoredStructField (mkStructField "Name" EmptyString false [("json", "-")]
                          (Basic TString) 0) = true.
Proof. reflexivity. Qed.

(** C2 (as stated, refuted).  In [struct { A int `json:"x"`; B int
    `json:"X"` }] the key [x] is filed first for field [A] (its tag) and
    then for field [B] (its tag in lower case); the compiled field map
    holds the set of [B], the later one, under [x]. *)
Lemma compileStruct_first_insertion_overwritten :
  ∃ fieldMap,
    compileStruct ToLowerASCII wordSize recordAB = Ok (Some (structDecoder fieldMap)) ∧
    keysOf ToLowerASCII fieldA = ["A"; "x"; "x"]%string ∧
    keysOf ToLowerASCII fieldB = ["B"; "X"; "x"]%string ∧
    fieldMap !! "x"%string = Some (mkFieldSet (Some (intDecoder writeInt)) (Offset fieldB)) ∧
    fieldMap !! "x"%string ≠ Some (mkFieldSet (Some (intDecoder writeInt)) (Offset fieldA)).
Proof.
  eexists. split; [reflexivity|].
  split; [reflexivity|]. split; [reflexivity|].
  split; [reflexivity|]. vm_compute. discriminate.
Qed.

(** C2 (amended).  Compiling a record type always yields a record decoder;
    every non-ignored field is filed under three keys (declared name,
    serialized name, serialized name in lower case); a key under which no
    non-ignored field is filed is absent; and a key under which several
    fields are filed holds the set of the last of them in declaration
    order. *)
Theorem compileStruct_three_keys_last_wins
    (ToLower : string → string) (Size : rtype → Z) (name : string)
    (fields : list StructField) :
  ∃ fieldMap,
    compileStruct ToLower Size (StructOf name fields)
      = Ok (Some (structDecoder fieldMap)) ∧
    (∀ k, (∀ f, f ∈ fields → isIgnoredStructField f = false → k ∉ keysOf ToLower f) →
          fieldMap !! k = None) ∧
    (∀ pre f post k,
        fields = pre ++ f :: post →
        isIgnoredStructField f = false →
        k ∈ keysOf ToLower f →
        (∀ g, g ∈ post → isIgnoredStructField g = false → k ∉ keysOf ToLower g) →
        ∃ d, compile ToLower Size (Type_ f) = Ok d ∧
             fieldMap !! k = Some (mkFieldSet d (Offset f))).
Proof.
  assert (Hall : Forall (λ f, ∃ d, compile ToLower Size (Type_ f) = Ok d) fields).
  { apply Forall_forall. intros f _. apply compile_total. }
  destruct (compileStruct_loop_spec ToLower _ _ Hall ∅) as (m & Hm & Hkeep & Hlast).
  exists m. unfold compileStruct. rewrite Hm.
  split; [done|]. split.
  - intros k Hk. rewrite Hkeep by done. apply lookup_empty.
  - intros pre f post k Heq Hf Hin Hpost.
    destruct (compile_total ToLower Size (Type_ f)) as [d Hd].
    exists d. split; [done|]. by eapply Hlast.
Qed.

Lemma compileStruct_three_keys_last_wins_witness :
  ∃ fieldMap,
    compileStruct ToLowerASCII wordSize recordAB = Ok (Some (structDecoder fieldMap)) ∧
    fieldMap !! "x"%string = Some (mkFieldSet (Some (intDecoder writeInt)) 8).
Proof.
  destruct (compileStruct_three_keys_last_wins ToLowerASCII wordSize
              "main.T" [fieldA; fieldB]) as (m & Hm & _ & Hlast).
  exists m. split; [exact Hm|].
  destruct (Hlast [fieldA] fieldB [] "x"%string) as (d & Hd & Hx).
  - reflexivity.
  - reflexivity.
  - vm_compute. right. right. left.
  - intros g Hg. inversion Hg.
  - vm_compute in Hd. injection Hd as <-. exact Hx.
Defined.

(** [compile] has no [case] for these kinds and returns [nil, nil]. *)
Lemma compile_unhandled ToLower Size typ :
  unhandled (Kind typ) = true → compile ToLower Size typ = Ok None.
Proof. destruct typ as [[]| | | | | |]; simpl; done. Qed.
End StructFacts.

(** ** [Decoder.Decode] *)
Section DecodeFacts.
Import Decode.
Variable ToLower : string → string.
Variable Size : rtype → Z.
Variable Mem : Type.
Variable decode_node : decoder → context → Z → Mem → context * Mem * option error.

#[local] Abbreviation Decode := (Decode ToLower Size Mem decode_node).
#[local] Abbreviation Decode_all := (Decode_all ToLower Size Mem decode_node).
#[local] Abbreviation Decode_loop := (Decode_loop Mem decode_node).
#[local] Abbreviation cachedOrCompile := (cachedOrCompile ToLower Size).

(** Discharges the test [typ.Kind() != reflect.Ptr] of [Decode] for a
    destination known to be a pointer. *)
#[local] Ltac pointer_kind :=
  rewrite bool_decide_eq_false_2 by (let H := fresh in intros H; by apply H).

Lemma Kind_Ptr_inv typ : Kind typ = reflect.Ptr → ∃ elem, typ = PtrTo elem.
Proof. destruct typ as [[]| | | | | |]; try discriminate. eauto. Qed.

Lemma cachedOrCompile_hit st typ name d :
  cachedDecoder st !! name = Some d →
  cachedOrCompile st typ name = (st, Ok d).
Proof. intros H. unfold Decode.cachedOrCompile. by rewrite H. Qed.

Lemma cachedOrCompile_miss st elem :
  cachedDecoder st !! typeString (PtrTo elem) = None →
  ∃ d, compile ToLower Size elem = Ok d ∧
       cachedOrCompile st (PtrTo elem) (typeString (PtrTo elem))
       = (mkState (<[typeString (PtrTo elem) := d]> (cachedDecoder st)) (ctxPool st)
                  (compiled st ++ [typeString (PtrTo elem)]),
          Ok d).
Proof.
  intros H. destruct (compile_total ToLower Size elem) as [d Hd].
  exists d. split; [done|].
  unfold Decode.cachedOrCompile. rewrite H. simpl. by rewrite Hd.
Qed.

(** The loop returns at once, without touching the destination, when the
    first answer of the reader carries no bytes or [io.EOF]. *)
Lemma Decode_loop_nothing_read rd d ctx p m :
  (Read rd).1.1 = [] ∨ (Read rd).1.2 = Some io_EOF →
  Decode_loop rd d ctx p m = ((Read rd).2, ctx, m, Ok tt).
Proof.
  destruct rd as [|[data err] rd']; simpl; [done|].
  intros [->| ->]; simpl; [done|].
  by rewrite orb_true_r.
Qed.

(** With two non-empty chunks and no reader error, the node runs on the
    first chunk alone and, if that returned no error, on the second chunk
    alone. *)
Lemma Decode_loop_two_chunks b1 c1 b2 c2 node ctx p m :
  Decode_loop (chunks [b1 :: c1; b2 :: c2]) (Some node) ctx p m =
  match decode_node node (mkContext (b1 :: c1) 0) p m with
  | (ctx1, m1, Some e) => ([mkRead (b2 :: c2) None], ctx1, m1, Err e)
  | (ctx1, m1, None) =>
      match decode_node node (mkContext (b2 :: c2) 0) p m1 with
      | (ctx2, m2, Some e) => ([], ctx2, m2, Err e)
      | (ctx2, m2, None) => ([], ctx2, m2, Ok tt)
      end
  end.
Proof.
  assert (Hlen : ∀ (b : byte) c, (len (b :: c) =? 0) = false).
  { intros b c. apply Z.eqb_neq. unfold len. simpl length. lia. }
  cbn -[len]. rewrite !Hlen. cbn. unfold setBuf.
  destruct (decode_node node _ p m) as [[ctx1 m1] [e|]]; [done|].
  by destruct (decode_node node _ p m1) as [[ctx2 m2] [e|]].
Qed.

(** C10.  When the destination is a pointer and the first [Read] delivers
    no bytes or answers [io.EOF], [Decode] returns [nil] and the
    destination memory is what it was. *)
Theorem Decode_nothing_read_returns_nil st d v m :
  Kind (typ v) = reflect.Ptr →
  (Read (r d)).1.1 = [] ∨ (Read (r d)).1.2 = Some io_EOF →
  ∃ st' d', Decode st d v m = (st', d', m, Ok tt).
Proof.
  intros Hk Hrd. unfold Decode.Decode.
  pointer_kind.
  destruct (Kind_Ptr_inv _ Hk) as [elem Ht]. rewrite Ht.
  destruct (cachedDecoder st !! typeString (PtrTo elem)) as [dec|] eqn:Hc.
  - rewrite (cachedOrCompile_hit _ _ _ _ Hc).
    destruct (ctxPool_Get (ctxPool st)) as [ctx pool].
    rewrite Decode_loop_nothing_read by done. eauto.
  - destruct (cachedOrCompile_miss _ _ Hc) as (dec & _ & ->).
    cbn [ctxPool cachedDecoder compiled].
    destruct (ctxPool_Get (ctxPool st)) as [ctx pool].
    rewrite Decode_loop_nothing_read by done. eauto.
Qed.

(** C6.  [DisallowUnknownFields] has an empty body: a decoder on which it
    was called decodes every input exactly as one on which it was not, so
    no input makes the first return an error that the second does not. *)
Theorem DisallowUnknownFields_changes_nothing st d v m :
  Decode st (DisallowUnknownFields d) v m = Decode st d v m ∧
  (∀ fd flag, DecodeFloat.setDisallowUnknownFields fd flag = fd).
Proof. split; reflexivity. Qed.

(** C1.  The reader delivers the JSON string 12345 in two chunks, the
    opening quote with 123 and then 45 with the closing quote, and the
    destination is a [*string].  Whatever the string node does, [Decode]
    runs it on the first chunk alone and, only if that returned no error,
    once more on the second chunk alone; no buffer ever holds the whole
    token. *)
Theorem Decode_runs_node_on_each_chunk_alone (m : Mem) :
  let chunk1 := x22 :: bytes "123" in
  let chunk2 := bytes "45" ++ [x22] in
  let cache : gmap string (option decoder) := <["*string"%string := Some stringDecoder]> ∅ in
  Decode init (NewDecoder (chunks [chunk1; chunk2]))
         (mkHeader (PtrTo (Basic TString)) 0) m =
  match decode_node stringDecoder (mkContext chunk1 0) 0 m with
  | (ctx1, m1, Some e) =>
      (mkState cache [ctx1] ["*string"%string],
       NewDecoder [mkRead chunk2 None], m1, Err e)
  | (ctx1, m1, None) =>
      match decode_node stringDecoder (mkContext chunk2 0) 0 m1 with
      | (ctx2, m2, Some e) =>
          (mkState cache [ctx2] ["*string"%string], NewDecoder [], m2, Err e)
      | (ctx2, m2, None) =>
          (mkState cache [ctx2] ["*string"%string], NewDecoder [], m2, Ok tt)
      end
  end.
Proof.
  intros chunk1 chunk2 cache. unfold Decode.Decode.
  cbn [typ Kind bool_decide decide_rel]. pointer_kind.
  destruct (cachedOrCompile_miss init (Basic TString) eq_refl) as (d & Hd & ->).
  cbn in Hd. injection Hd as <-.
  cbn [ctxPool cachedDecoder compiled init ctxPool_Get r ptr].
  change (chunks [chunk1; chunk2])
    with (chunks [x22 :: bytes "123"; "4"%byte :: bytes "5" ++ [x22]]).
  rewrite Decode_loop_two_chunks.
  destruct (decode_node stringDecoder _ 0 m) as [[ctx1 m1] [e|]]; [reflexivity|].
  destruct (decode_node stringDecoder _ 0 m1) as [[ctx2 m2] [e|]]; reflexivity.
Qed.

(** C5.  For a map type [compile] returns [nil, nil]: no error reaches the
    caller.  [Decode] then publishes the nil decoder under the name of the
    pointer type and panics on the method call [dec.decode].  For a record
    with a field of channel type [compile] returns, again without error, a
    record decoder whose field set holds a nil decoder. *)
Theorem compile_unhandled_kind_no_error (m : Mem) :
  let mapType := MapOf (Basic TString) (Basic TInt) in
  let chanField := mkStructField "C" EmptyString false [] (ChanOf (Basic TInt)) 0 in
  let nilSet : structFieldSet decoder := mkFieldSet None 0 in
  compile ToLower Size mapType = Ok None ∧
  Decode init (NewDecoder (chunks [bytes "{}"])) (mkHeader (PtrTo mapType) 0) m =
    (mkState (<["*map[string]int"%string := None]> ∅) [mkContext (bytes "{}") 0]
             ["*map[string]int"%string],
     NewDecoder [], m, Panic) ∧
  compile ToLower Size (StructOf "main.S" [chanField]) =
    Ok (Some (structDecoder
                (<[ToLower "C" := nilSet]> (<["C"%string := nilSet]>
                   (<["C"%string := nilSet]> ∅))))).
Proof. repeat split; reflexivity. Qed.

(** *** The cache of decoders *)

Lemma Decode_hit st d v m dec :
  Kind (typ v) = reflect.Ptr →
  cachedDecoder st !! typeString (typ v) = Some dec →
  compiled (Decode st d v m).1.1.1 = compiled st ∧
  cachedDecoder (Decode st d v m).1.1.1 = cachedDecoder st.
Proof.
  intros Hk Hc. unfold Decode.Decode.
  pointer_kind.
  rewrite (cachedOrCompile_hit _ _ _ _ Hc).
  destruct (ctxPool_Get (ctxPool st)) as [ctx pool].
  by destruct (Decode_loop _ _ _ _ _) as [[[rd ctx'] m'] res].
Qed.

Lemma Decode_miss st d v m :
  Kind (typ v) = reflect.Ptr →
  cachedDecoder st !! typeString (typ v) = None →
  ∃ elem dec,
    typ v = PtrTo elem ∧ compile ToLower Size elem = Ok dec ∧
    compiled (Decode st d v m).1.1.1 = compiled st ++ [typeString (typ v)] ∧
    cachedDecoder (Decode st d v m).1.1.1
      = <[typeString (typ v) := dec]> (cachedDecoder st).
Proof.
  intros Hk Hc. destruct (Kind_Ptr_inv _ Hk) as [elem Ht].
  unfold Decode.Decode.
  pointer_kind.
  rewrite Ht in Hc |- *.
  destruct (cachedOrCompile_miss _ _ Hc) as (dec & Hdec & ->).
  exists elem, dec. split; [done|]. split; [done|].
  cbn [ctxPool cachedDecoder compiled].
  destruct (ctxPool_Get (ctxPool st)) as [ctx pool].
  by destruct (Decode_loop _ _ _ _ _) as [[[rd ctx'] m'] res].
Qed.

Lemma Decode_not_pointer st d v m :
  Kind (typ v) ≠ reflect.Ptr →
  Decode st d v m = (st, d, m, Err ErrDecodePointer).
Proof.
  intros Hk. unfold Decode.Decode. by rewrite bool_decide_eq_true_2.
Qed.

(** On a cached name [Decode] compiles nothing: it runs the loop with the
    cached decoder and leaves the cache and the record of compilations as
    they are. *)
Lemma Decode_hit_runs st d v m dec :
  Kind (typ v) = reflect.Ptr →
  cachedDecoder st !! typeString (typ v) = Some dec →
  Decode st d v m =
    let '(ctx, pool) := ctxPool_Get (ctxPool st) in
    let '(rd, ctx, m', res) := Decode_loop (r d) dec ctx (ptr v) m in
    (mkState (cachedDecoder st) (ctx :: pool) (compiled st), NewDecoder rd, m', res).
Proof.
  intros Hk Hc. unfold Decode.Decode. pointer_kind.
  by rewrite (cachedOrCompile_hit _ _ _ _ Hc).
Qed.

(** On a name that is not cached [Decode] compiles the element type,
    publishes the decoder under the name, and runs the loop with it. *)
Lemma Decode_miss_runs st d v m elem dec :
  typ v = PtrTo elem →
  cachedDecoder st !! typeString (typ v) = None →
  compile ToLower Size elem = Ok dec →
  Decode st d v m =
    let '(ctx, pool) := ctxPool_Get (ctxPool st) in
    let '(rd, ctx, m', res) := Decode_loop (r d) dec ctx (ptr v) m in
    (mkState (<[typeString (typ v) := dec]> (cachedDecoder st)) (ctx :: pool)
             (compiled st ++ [typeString (typ v)]),
     NewDecoder rd, m', res).
Proof.
  intros Ht Hc Hd. unfold Decode.Decode. rewrite Ht in Hc |- *.
  pointer_kind.
  destruct (cachedOrCompile_miss _ _ Hc) as (dec' & Hd' & ->).
  rewrite Hd in Hd'. injection Hd' as <-. done.
Qed.

(** A published decoder stays published, under its name and unchanged. *)
Lemma Decode_keeps_published st d v m name dec :
  cachedDecoder st !! name = Some dec →
  cachedDecoder (Decode st d v m).1.1.1 !! name = Some dec.
Proof.
  intros Hn.
  destruct (decide (Kind (typ v) = reflect.Ptr)) as [Hk|Hk];
    [|by rewrite Decode_not_pointer].
  destruct (cachedDecoder st !! typeString (typ v)) as [dec'|] eqn:Hc.
  - destruct (Decode_hit st d v m dec' Hk Hc) as [_ ->]. done.
  - destruct (Decode_miss st d v m Hk Hc) as (elem & dec' & _ & _ & _ & ->).
    rewrite lookup_insert_ne; [done|]. intros <-. congruence.
Qed.

Lemma Decode_all_keeps_published vs st d m name dec :
  cachedDecoder st !! name = Some dec →
  cachedDecoder (Decode_all st d vs m).1.1.1 !! name = Some dec.
Proof.
  revert st d m. induction vs as [|v vs IH]; intros st d m Hn; simpl; [done|].
  pose proof (Decode_keeps_published st d v m name dec Hn) as H1.
  destruct (Decode st d v m) as [[[st1 d1] m1] res1]. simpl in H1.
  specialize (IH st1 d1 m1 H1).
  by destruct (Decode_all st1 d1 vs m1) as [[[st2 d2] m2] ress].
Qed.

(** The cache is keyed by the string of the type, and two types can have
    one string.  After a [Decode] into a [*model.T] of the first package,
    the first [Decode] into a [*model.T] of the second compiles nothing: it
    finds the name in the cache and runs the decoder that was compiled for
    the other type. *)
Lemma Decode_same_name_shares_program d1 p1 m1 d2 p2 m2 :
  PtrTo modelT1 ≠ PtrTo modelT2 ∧
  typeString (PtrTo modelT1) = typeString (PtrTo modelT2) ∧
  compile ToLower Size modelT1 ≠ compile ToLower Size modelT2 ∧
  ∃ dec1,
    compile ToLower Size modelT1 = Ok dec1 ∧
    let st1 := (Decode init d1 (mkHeader (PtrTo modelT1) p1) m1).1.1.1 in
    compiled st1 = ["*model.T"%string] ∧
    Decode st1 d2 (mkHeader (PtrTo modelT2) p2) m2 =
      let '(ctx, pool) := ctxPool_Get (ctxPool st1) in
      let '(rd, ctx, m', res) := Decode_loop (r d2) dec1 ctx p2 m2 in
      (mkState (cachedDecoder st1) (ctx :: pool) ["*model.T"%string],
       NewDecoder rd, m', res).
Proof.
  split; [discriminate|]. split; [reflexivity|]. split.
  - set (fx := mkFieldSet (Some (intDecoder writeInt)) 0 : structFieldSet decoder).
    set (fy := mkFieldSet (Some stringDecoder) 0 : structFieldSet decoder).
    assert (H1 : compile ToLower Size modelT1
                 = Ok (Some (structDecoder
                        (<[ToLower "X" := fx]> (<["X"%string := fx]>
                           (<["X"%string := fx]> ∅)))))) by reflexivity.
    assert (H2 : compile ToLower Size modelT2
                 = Ok (Some (structDecoder
                        (<[ToLower "Y" := fy]> (<["Y"%string := fy]>
                           (<["Y"%string := fy]> ∅)))))) by reflexivity.
    rewrite H1, H2. intros Heq.
    apply (f_equal (λ r, match r with
                         | Ok (Some (structDecoder fm)) => fm !! "X"%string
                         | _ => None
                         end)) in Heq.
    cbv beta iota in Heq.
    assert (Hx : (<[ToLower "X" := fx]> (<["X"%string := fx]>
                    (<["X"%string := fx]> (∅ : gmap string (structFieldSet decoder)))))
                 !! "X"%string = Some fx).
    { destruct (decide (ToLower "X" = "X"%string)) as [->|Hne].
      - by rewrite lookup_insert_eq.
      - rewrite lookup_insert_ne by done. by rewrite lookup_insert_eq. }
    rewrite Hx in Heq.
    destruct (decide (ToLower "Y" = "X"%string)) as [He|Hne].
    + rewrite He, lookup_insert_eq in Heq. discriminate.
    + rewrite lookup_insert_ne in Heq by done.
      rewrite !lookup_insert_ne in Heq by discriminate.
      by rewrite lookup_empty in Heq.
  - destruct (compile_total ToLower Size modelT1) as [dec1 Hd1].
    exists dec1. split; [done|].
    pose proof (Decode_miss_runs init d1 (mkHeader (PtrTo modelT1) p1) m1 modelT1 dec1
                  eq_refl (lookup_empty _) Hd1) as H1.
    cbn zeta. rewrite H1.
    cbn [ctxPool init ctxPool_Get cachedDecoder compiled].
    destruct (Decode_loop (r d1) dec1 newContext _ m1) as [[[rd1 ctx1] m1'] res1].
    cbn [fst snd compiled app]. split; [done|].
    rewrite (Decode_hit_runs _ d2 (mkHeader (PtrTo modelT2) p2) m2 dec1 eq_refl).
    + done.
    + cbn [cachedDecoder typ]. apply lookup_insert_eq.
Qed.

Lemma Decode_compiled_once st d v m :
  compiled_once st → compiled_once (Decode st d v m).1.1.1.
Proof.
  intros [Hnd Hpub].
  destruct (decide (Kind (typ v) = reflect.Ptr)) as [Hk|Hk];
    [|by rewrite Decode_not_pointer].
  destruct (cachedDecoder st !! typeString (typ v)) as [dec|] eqn:Hc.
  - destruct (Decode_hit st d v m dec Hk Hc) as [Hl Hm].
    unfold compiled_once. by rewrite Hl, Hm.
  - destruct (Decode_miss st d v m Hk Hc) as (elem & dec & _ & _ & Hl & Hm).
    unfold compiled_once. rewrite Hl, Hm. split.
    + apply NoDup_app. split; [done|]. split; [|apply NoDup_singleton].
      intros name Hin Hin'. apply list_elem_of_singleton in Hin' as ->.
      apply Hpub in Hin. rewrite Hc in Hin. by destruct Hin.
    + intros name [Hin|Hin]%elem_of_app.
      * destruct (decide (typeString (typ v) = name)) as [->|Hne].
        -- rewrite lookup_insert_eq. eauto.
        -- rewrite lookup_insert_ne by done. by apply Hpub.
      * apply list_elem_of_singleton in Hin as ->. rewrite lookup_insert_eq. eauto.
Qed.

Lemma Decode_all_compiled_once vs st d m :
  compiled_once st → compiled_once (Decode_all st d vs m).1.1.1.
Proof.
  revert st d m. induction vs as [|v vs IH]; intros st d m Hst; simpl; [done|].
  pose proof (Decode_compiled_once st d v m Hst) as H1.
  destruct (Decode st d v m) as [[[st1 d1] m1] res1]. simpl in H1.
  specialize (IH st1 d1 m1 H1).
  by destruct (Decode_all st1 d1 vs m1) as [[[st2 d2] m2] ress].
Qed.

Lemma init_compiled_once : compiled_once init.
Proof. split; [constructor|]. intros name Hin. inversion Hin. Qed.
End DecodeFacts.

(** ** [Encoder.Encode] and [Encoder.encode] *)
Section EncodeFacts.
Import Encode.
Variable opcode : Type.
Variable copyOpcode : opcode → opcode.
Variable set_ptr : opcode → Z → opcode.
Variable compileHead : Encoder opcode → Z → bool → Encoder opcode * result opcode.
Variable run : Encoder opcode → opcode → Encoder opcode * option error.

#[local] Abbreviation encode := (encode opcode copyOpcode set_ptr compileHead run).
#[local] Abbreviation Encode := (Encode opcode copyOpcode set_ptr compileHead run).
#[local] Abbreviation Encode_all := (Encode_all opcode copyOpcode set_ptr compileHead run).
#[local] Abbreviation Pool_Get := (Pool_Get opcode copyOpcode).
#[local] Abbreviation headsOf := Encode.headsOf.

(** [Encode] hands to [Write] the buffer exactly as [encode] left it, and
    adds no byte of its own. *)
Lemma Encode_writes_buf st e v st' e' wr :
  encode st e v = (st', e', Ok tt) →
  w opcode e' = Some wr →
  failing wr = None →
  Encode st e v
  = (st', set_w opcode e' (Some (mkWriter (written wr ++ [buf opcode e']) None)), Ok tt).
Proof.
  intros He Hw Hf. unfold Encode.Encode. rewrite He, Hw.
  unfold Writer_Write. by rewrite Hf.
Qed.

(** Without indentation, [Encode] writes the very bytes that
    [encodeForMarshal] returns for the same call. *)
Lemma Encode_writes_marshal_bytes st e v st' e' json wr :
  encodeForMarshal opcode copyOpcode set_ptr compileHead run st e v = (st', e', Ok json) →
  enabledIndent opcode e' = false →
  w opcode e' = Some wr →
  failing wr = None →
  Encode st e v
  = (st', set_w opcode e' (Some (mkWriter (written wr ++ [json]) None)), Ok tt).
Proof.
  unfold Encode.encodeForMarshal. intros Hm Hi Hw Hf.
  destruct (encode st e v) as [[st1 e1] [[]|err|]] eqn:He; [|done..].
  destruct (enabledIndent opcode e1) eqn:Hi1.
  - destruct (index _ _); [|done]. injection Hm as _ He1 _. congruence.
  - injection Hm as Hst He1 Hj. subst st1 e1 json. by apply Encode_writes_buf.
Qed.

(** [Encode] does not touch the state of the caches, nor the buffer. *)
Lemma Encode_state_buf st e v :
  (Encode st e v).1.1 = (encode st e v).1.1 ∧
  buf opcode (Encode st e v).1.2 = buf opcode (encode st e v).1.2.
Proof.
  unfold Encode.Encode.
  destruct (encode st e v) as [[st' e'] [[]|err|]]; [|done..].
  destruct (w opcode e') as [wr|]; [|done].
  by destruct (Writer_Write wr _).
Qed.

(** On a cached type [encode] compiles nothing: the program it runs comes
    from the pool of the cached set (a pooled program, or a copy of the
    published one), the record of compilations and the published programs
    stay as they are, and [run] starts from the encoder as it is, buffer
    included. *)
Lemma encode_hit st e v cs :
  cachedOpcode opcode st !! typ v = Some cs →
  compiledHeads opcode (encode st e v).1.1 = compiledHeads opcode st ∧
  (∀ t, is_Some (cachedOpcode opcode (encode st e v).1.1 !! t)
        ↔ is_Some (cachedOpcode opcode st !! t)) ∧
  (∃ cs', cachedOpcode opcode (encode st e v).1.1 !! typ v = Some cs' ∧
          template opcode (code opcode cs') = template opcode (code opcode cs) ∧
          template opcode (codeIndent opcode cs')
            = template opcode (codeIndent opcode cs)) ∧
  (encode st e v).1.2
  = (run e (set_ptr (Pool_Get (if enabledIndent opcode e
                               then codeIndent opcode cs
                               else code opcode cs)).1 (ptr v))).1.
Proof.
  intros Hc. unfold Encode.encode. rewrite Hc.
  assert (Hdom : ∀ cs' t,
    is_Some (<[typ v := cs']> (cachedOpcode opcode st) !! t)
    ↔ is_Some (cachedOpcode opcode st !! t)).
  { intros cs' t. destruct (decide (typ v = t)) as [<-|Hne].
    - rewrite lookup_insert_eq, Hc. split; eauto.
    - by rewrite lookup_insert_ne. }
  destruct (enabledIndent opcode e) eqn:Hi.
  - destruct (Pool_Get (codeIndent opcode cs)) as [c p] eqn:Hg.
    assert (Ht : template opcode p = template opcode (codeIndent opcode cs)).
    { unfold Encode.Pool_Get in Hg.
      destruct (free opcode (codeIndent opcode cs)); by injection Hg as _ <-. }
    simpl. destruct (run e (set_ptr c (ptr v))) as [e' [err|]]; simpl.
    + split; [done|]. split; [apply Hdom|]. split; [|done].
      eexists. rewrite lookup_insert_eq. split; [done|]. by simpl.
    + split; [done|]. split; [apply Hdom|]. split; [|done].
      eexists. rewrite lookup_insert_eq. split; [done|].
      by destruct (enabledIndent opcode e').
  - destruct (Pool_Get (code opcode cs)) as [c p] eqn:Hg.
    assert (Ht : template opcode p = template opcode (code opcode cs)).
    { unfold Encode.Pool_Get in Hg.
      destruct (free opcode (code opcode cs)); by injection Hg as _ <-. }
    simpl. destruct (run e (set_ptr c (ptr v))) as [e' [err|]]; simpl.
    + split; [done|]. split; [apply Hdom|]. split; [|done].
      eexists. rewrite lookup_insert_eq. split; [done|]. by simpl.
    + split; [done|]. split; [apply Hdom|]. split; [|done].
      eexists. rewrite lookup_insert_eq. split; [done|].
      by destruct (enabledIndent opcode e').
Qed.

(** On a type that is not cached, and when both compilations succeed,
    [encode] compiles the two programs of the type, one per mode, and
    publishes them. *)
Lemma encode_miss st e v e1 cIndent e2 c :
  cachedOpcode opcode st !! typ v = None →
  compileHead e (typ v) true = (e1, Ok cIndent) →
  compileHead e1 (typ v) false = (e2, Ok c) →
  compiledHeads opcode (encode st e v).1.1
    = compiledHeads opcode st ++ [(typ v, true); (typ v, false)] ∧
  (∃ cs, cachedOpcode opcode (encode st e v).1.1 !! typ v = Some cs ∧
         free opcode (code opcode cs) = [] ∧ free opcode (codeIndent opcode cs) = [] ∧
         template opcode (code opcode cs)
           = (if enabledIndent opcode e2 then c else set_ptr c (ptr v)) ∧
         template opcode (codeIndent opcode cs)
           = (if enabledIndent opcode e2 then set_ptr cIndent (ptr v) else cIndent)) ∧
  (∀ t, t ≠ typ v →
        cachedOpcode opcode (encode st e v).1.1 !! t = cachedOpcode opcode st !! t).
Proof.
  intros Hc H1 H2. unfold Encode.encode. rewrite Hc, H1, H2.
  destruct (run e2 _) as [e' err]. simpl.
  split; [by rewrite <- app_assoc|]. split.
  - eexists. rewrite lookup_insert_eq. split; [done|]. by simpl.
  - intros t Ht. by rewrite lookup_insert_ne.
Qed.

(** When [run] only appends, a call of [Encode] on a cached type leaves in
    the buffer, and so hands to [Write], all the bytes that were in the
    buffer before the call, followed by those of the value. *)
Lemma Encode_hit_keeps_previous_bytes st e v cs :
  run_appends opcode run →
  cachedOpcode opcode st !! typ v = Some cs →
  ∃ out, buf opcode (Encode st e v).1.2 = buf opcode e ++ out.
Proof.
  intros Happ Hc. destruct (Encode_state_buf st e v) as [_ ->].
  destruct (encode_hit st e v cs Hc) as (_ & _ & _ & ->).
  destruct (Happ e (set_ptr (Pool_Get (if enabledIndent opcode e
                                       then codeIndent opcode cs
                                       else code opcode cs)).1 (ptr v)))
    as (out & Hout & _).
  eauto.
Qed.

(** [encode] touches the cache at the type of the value only. *)
Lemma encode_other_types st e v t :
  t ≠ typ v →
  cachedOpcode opcode (encode st e v).1.1 !! t = cachedOpcode opcode st !! t.
Proof.
  intros Ht. unfold Encode.encode.
  destruct (cachedOpcode opcode st !! typ v) as [cs|] eqn:Hc.
  - destruct (enabledIndent opcode e).
    + destruct (Encode.Pool_Get _ _ _) as [c p].
      destruct (run e _) as [e' [err|]]; simpl; by rewrite lookup_insert_ne.
    + destruct (Encode.Pool_Get _ _ _) as [c p].
      destruct (run e _) as [e' [err|]]; simpl; by rewrite lookup_insert_ne.
  - destruct (compileHead e (typ v) true) as [e1 [cI|err|]]; [|done..].
    destruct (compileHead e1 (typ v) false) as [e2 [c|err|]]; [|done..].
    destruct (run e2 _) as [e' err]. simpl. by rewrite lookup_insert_ne.
Qed.

(** What a call of [encode] adds to the record of compilations concerns
    the type of the value alone, and nothing is added on a cached type. *)
Lemma encode_log st e v :
  ∃ l, compiledHeads opcode (encode st e v).1.1 = compiledHeads opcode st ++ l ∧
       Forall (λ x, x.1 = typ v) l ∧
       (is_Some (cachedOpcode opcode st !! typ v) → l = []) ∧
       (cachedOpcode opcode st !! typ v = None → ∃ l', l = (typ v, true) :: l').
Proof.
  unfold Encode.encode.
  destruct (cachedOpcode opcode st !! typ v) as [cs|] eqn:Hc.
  - exists []. rewrite app_nil_r. split; [|split; [done|split; [done|done]]].
    destruct (enabledIndent opcode e).
    + destruct (Encode.Pool_Get _ _ _) as [c p].
      by destruct (run e _) as [e' [err|]].
    + destruct (Encode.Pool_Get _ _ _) as [c p].
      by destruct (run e _) as [e' [err|]].
  - assert (Hnone : ¬ is_Some (None : option (opcodeSet opcode))) by (intros [? ?]; done).
    destruct (compileHead e (typ v) true) as [e1 [cI|err|]];
      [|exists [(typ v, true)]; simpl;
        (split; [done|split; [by repeat constructor|split; [done|eauto]]])..].
    destruct (compileHead e1 (typ v) false) as [e2 [c|err|]].
    + destruct (run e2 _) as [e' err]. exists [(typ v, true); (typ v, false)]. simpl.
      split; [by rewrite <- app_assoc|]. split; [by repeat constructor|]. split; [done|eauto].
    + exists [(typ v, true); (typ v, false)]. simpl.
      split; [by rewrite <- app_assoc|]. split; [by repeat constructor|]. split; [done|eauto].
    + exists [(typ v, true); (typ v, false)]. simpl.
      split; [by rewrite <- app_assoc|]. split; [by repeat constructor|]. split; [done|eauto].
Qed.

(** When one of the two compilations fails, nothing is published. *)
Lemma encode_refused st e v :
  cachedOpcode opcode st !! typ v = None →
  ¬ both_compile opcode compileHead e (typ v) →
  cachedOpcode opcode (encode st e v).1.1 = cachedOpcode opcode st ∧
  (encode st e v).2 ≠ Ok tt.
Proof.
  intros Hc Hno. unfold Encode.encode. rewrite Hc.
  destruct (compileHead e (typ v) true) as [e1 [cI|err|]] eqn:H1; [|done..].
  destruct (compileHead e1 (typ v) false) as [e2 [c|err|]] eqn:H2; [|done..].
  destruct Hno. by exists e1, cI, e2, c.
Qed.

Lemma headsOf_other t t' (l : list (Z * bool)) :
  t ≠ t' → Forall (λ x, x.1 = t') l → headsOf t l = [].
Proof.
  intros Hne Hl. unfold headsOf. induction Hl as [|x l Hx _ IH]; [done|].
  rewrite filter_cons_False by congruence. done.
Qed.

(** A published type is not compiled again, and stays published. *)
Lemma encode_published st e v t :
  is_Some (cachedOpcode opcode st !! t) →
  headsOf t (compiledHeads opcode (encode st e v).1.1)
  = headsOf t (compiledHeads opcode st) ∧
  is_Some (cachedOpcode opcode (encode st e v).1.1 !! t).
Proof.
  intros Hp. destruct (encode_log st e v) as (l & Hl & Hall & Hhit & _).
  destruct (decide (t = typ v)) as [->|Hne].
  - rewrite Hl, (Hhit Hp), app_nil_r. split; [done|].
    destruct Hp as [cs Hc].
    destruct (encode_hit st e v cs Hc) as (_ & Hdom & _). apply Hdom. eauto.
  - pose proof (headsOf_other t (typ v) l Hne Hall) as Hno.
    rewrite Hl. unfold Encode.headsOf in Hno |- *.
    rewrite filter_app, Hno, app_nil_r. split; [done|].
    by rewrite encode_other_types.
Qed.

Lemma Encode_all_published calls st e t :
  is_Some (cachedOpcode opcode st !! t) →
  headsOf t (compiledHeads opcode (Encode_all st e calls).1.1)
  = headsOf t (compiledHeads opcode st) ∧
  is_Some (cachedOpcode opcode (Encode_all st e calls).1.1 !! t).
Proof.
  revert st e. induction calls as [|[ind v] calls IH]; intros st e Hp; simpl; [done|].
  set (e0 := match ind with Some (pre, unit) => SetIndent opcode e pre unit | None => e end).
  destruct (encode_published st e0 v t Hp) as [H1 H2].
  destruct (Encode_state_buf st e0 v) as [Hs _]. rewrite <- Hs in H1, H2.
  destruct (Encode st e0 v) as [[st1 e1] res1]. simpl in H1, H2.
  destruct (IH st1 e1 H2) as [H3 H4].
  destruct (Encode_all st1 e1 calls) as [[st2 e2] ress]. simpl in *.
  split; [congruence|done].
Qed.

(** For a type that the compiler accepts: no pair of the type and a mode is
    compiled twice, and the type is published once it was compiled. *)
Lemma encode_headsOf_once t st e v :
  compileHead_succeeds_on opcode compileHead t →
  NoDup (headsOf t (compiledHeads opcode st)) ∧
  (headsOf t (compiledHeads opcode st) ≠ [] → is_Some (cachedOpcode opcode st !! t)) →
  NoDup (headsOf t (compiledHeads opcode (encode st e v).1.1)) ∧
  (headsOf t (compiledHeads opcode (encode st e v).1.1) ≠ []
   → is_Some (cachedOpcode opcode (encode st e v).1.1 !! t)).
Proof.
  intros Hok [Hnd Hpub].
  destruct (cachedOpcode opcode st !! t) as [cs|] eqn:Hc.
  - destruct (encode_published st e v t) as [-> H2]; [by rewrite Hc|]. done.
  - assert (Hnil : headsOf t (compiledHeads opcode st) = []).
    { destruct (headsOf t (compiledHeads opcode st)) eqn:Hh; [done|].
      destruct Hpub as [? ?]; [done|congruence]. }
    destruct (decide (t = typ v)) as [->|Hne].
    + destruct (Hok e true) as (e1 & cI & H1).
      destruct (Hok e1 false) as (e2 & c & H2).
      destruct (encode_miss st e v _ _ _ _ Hc H1 H2) as (Hl & (cs & Hcs & _) & _).
      rewrite Hl. unfold Encode.headsOf in Hnil |- *. rewrite !filter_app, Hnil. simpl.
      rewrite !(filter_cons_True (λ x : Z * bool, x.1 = typ v)) by done.
      rewrite filter_nil. split; [|rewrite Hcs; eauto].
      apply NoDup_cons. split; [|apply NoDup_singleton].
      rewrite list_elem_of_singleton. congruence.
    + destruct (encode_log st e v) as (l & Hl & Hall & _).
      pose proof (headsOf_other t (typ v) l Hne Hall) as Hno.
      rewrite Hl. unfold Encode.headsOf in Hnil, Hno |- *.
      rewrite !filter_app, Hno, app_nil_r, Hnil.
      split; [constructor|done].
Qed.

Lemma Encode_all_headsOf_once t calls st e :
  compileHead_succeeds_on opcode compileHead t →
  NoDup (headsOf t (compiledHeads opcode st)) ∧
  (headsOf t (compiledHeads opcode st) ≠ [] → is_Some (cachedOpcode opcode st !! t)) →
  NoDup (headsOf t (compiledHeads opcode (Encode_all st e calls).1.1)).
Proof.
  intros Hok. revert st e.
  induction calls as [|[ind v] calls IH]; intros st e Hst; simpl; [by destruct Hst|].
  set (e0 := match ind with Some (pre, unit) => SetIndent opcode e pre unit | None => e end).
  pose proof (encode_headsOf_once t st e0 v Hok Hst) as H1.
  destruct (Encode_state_buf st e0 v) as [Hs _]. rewrite <- Hs in H1.
  destruct (Encode st e0 v) as [[st1 e1] res1]. simpl in H1.
  specialize (IH st1 e1 H1).
  by destruct (Encode_all st1 e1 calls) as [[st2 e2] ress].
Qed.

End EncodeFacts.

(** ** The claims about the caches, and the evaluations on sample inputs *)
Section Closing.
Import Decode Encode.

Lemma Decode_nothing_read_returns_nil_witness :
  ∃ st' d',
    Decode.Decode ToLowerASCII wordSize (list (list byte)) observe Decode.init
      (NewDecoder []) (Decode.mkHeader (PtrTo (Basic TInt)) 0) []
    = (st', d', [], Ok tt).
Proof.
  apply Decode_nothing_read_returns_nil; [reflexivity | left; reflexivity].
Defined.

(** The buffers that the string node is handed when the reader delivers
    the string 12345 in two chunks: each chunk by itself. *)
Example Decode_observed_buffers :
  (Decode.Decode ToLowerASCII wordSize (list (list byte)) observe Decode.init
     (NewDecoder (chunks [x22 :: bytes "123"; bytes "45" ++ [x22]]))
     (Decode.mkHeader (PtrTo (Basic TString)) 0) []).1.2
  = [x22 :: bytes "123"; bytes "45" ++ [x22]].
Proof. reflexivity. Qed.

(** C3.  A fresh encoder encodes the value [true] with the sample engine:
    the writer receives the four bytes of [true], the bytes that
    [encodeForMarshal] returns for the same call, and nothing after them,
    in particular no newline. *)
Theorem Encode_writes_no_newline :
  let '(st, e) := NewEncoder Z (Encode.init Z) (mkWriter [] None) in
  let '(_, e', res) := Encode.Encode Z boolCopy boolSetPtr boolCompileHead boolRun st e vTrue in
  res = Ok tt ∧ output Z e' = [bytes "true"] ∧
  last (concat (output Z e')) = Some "e"%byte ∧
  (encodeForMarshal Z boolCopy boolSetPtr boolCompileHead boolRun st e vTrue).2
  = Ok (bytes "true").
Proof. vm_compute. repeat split. Qed.

(** C7.  Two calls of [Encode] on one encoder, first [true], then
    [false]: the second [Write] receives the bytes of the first value
    again, followed by those of the second.  Only [reset], which
    [NewEncoder] calls, empties the buffer. *)
Theorem Encode_twice_repeats_first_output :
  let '(st, e) := NewEncoder Z (Encode.init Z) (mkWriter [] None) in
  let '(st1, e1, res1) := Encode.Encode Z boolCopy boolSetPtr boolCompileHead boolRun st e vTrue in
  let '(_, e2, res2) := Encode.Encode Z boolCopy boolSetPtr boolCompileHead boolRun st1 e1 vFalse in
  res1 = Ok tt ∧ res2 = Ok tt ∧
  output Z e2 = [bytes "true"; bytes "truefalse"] ∧
  Encode.buf Z (reset Z e2) = [].
Proof. vm_compute. repeat split. Qed.



End Closing.

(** * Further properties *)

(** ** The numeric scanners *)
Section ScannerFacts.
Import DecodeFloat.

Lemma len_slice {A} (l : list A) lo hi :
  0 ≤ lo ≤ hi → hi ≤ len l → len (slice l lo hi) = hi - lo.
Proof.
  unfold slice, len. intros Hlo Hhi. rewrite length_take, length_drop. lia.
Qed.

Lemma index_slice {A} (l : list A) lo hi i :
  0 ≤ lo → 0 ≤ i < hi - lo → index (slice l lo hi) i = index l (lo + i).
Proof.
  unfold slice, index. intros Hlo Hi.
  destruct (Z.ltb_spec i 0); [lia|]. destruct (Z.ltb_spec (lo + i) 0); [lia|].
  rewrite lookup_take_lt by lia. rewrite lookup_drop. f_equal. lia.
Qed.

Lemma slice_all {A} (l : list A) : slice l 0 (len l) = l.
Proof.
  unfold slice, len. rewrite drop_0, Z.sub_0_r, Nat2Z.id. apply firstn_all.
Qed.

(** The first position at or after [pos] that holds no white space. *)
Lemma first_non_space input pos :
  0 ≤ pos ≤ len input →
  ∃ j, pos ≤ j ≤ len input ∧
       (∀ i, pos ≤ i < j → ∃ b, index input i = Some b ∧ isSpace b = true) ∧
       (∀ c, index input j = Some c → isSpace c = false).
Proof.
  intros Hpos. remember (Z.to_nat (len input - pos)) as n eqn:Hn.
  revert pos Hpos Hn. induction n as [|n IH]; intros pos Hpos Hn.
  - exists pos. split; [lia|]. split; [lia|].
    intros c Hc. apply index_Some_range in Hc. lia.
  - destruct (index_in_range input pos) as [c Hc]; [lia|].
    destruct (isSpace c) eqn:Hs.
    + destruct (IH (pos + 1)) as (j & Hj & Hsp & Hns); [lia|lia|].
      exists j. split; [lia|]. split; [|done].
      intros i Hi. destruct (decide (i = pos)) as [->|]; [eauto|]. apply Hsp. lia.
    + exists pos. split; [lia|]. split; [lia|]. intros c' Hc'. congruence.
Qed.

(** The outer loop of [decodeByte] steps over white space. *)
Lemma decodeByte_loop_skip n input pos j :
  0 ≤ pos ≤ j → j ≤ len input →
  n = Z.to_nat (len input - pos) →
  (∀ i, pos ≤ i < j → ∃ b, index input i = Some b ∧ isSpace b = true) →
  decodeByte_loop n input pos = decodeByte_loop (Z.to_nat (len input - j)) input j.
Proof.
  revert pos. induction n as [|n IH]; intros pos Hpos Hj Hn Hsp.
  - assert (pos = j) as -> by lia. by rewrite <- Hn.
  - destruct (decide (pos = j)) as [->|Hne]; [by rewrite <- Hn|].
    destruct (Hsp pos) as (b & Hb & Hs); [lia|].
    simpl. rewrite Hb, Hs. apply IH; [lia|lia|lia|].
    intros i Hi. apply Hsp. lia.
Qed.

(** The end of a numeric token is determined by its start. *)
Lemma token_end_unique input j stop stop' :
  j < stop → j < stop' →
  (∀ i, j < i < stop → ∃ b, index input i = Some b ∧ inFloatTable b = true) →
  (stop = len input ∨ ∃ b, index input stop = Some b ∧ inFloatTable b = false) →
  (∀ i, j < i < stop' → ∃ b, index input i = Some b ∧ inFloatTable b = true) →
  (stop' = len input ∨ ∃ b, index input stop' = Some b ∧ inFloatTable b = false) →
  stop = stop'.
Proof.
  intros Hs Hs' Hin Hend Hin' Hend'.
  destruct (Z.lt_trichotomy stop stop') as [Hlt|[Heq|Hgt]]; [|done|].
  - destruct (Hin' stop) as (b & Hb & Ht); [lia|].
    destruct Hend as [->|(b' & Hb' & Ht')]; [|congruence].
    apply index_Some_range in Hb. lia.
  - destruct (Hin stop') as (b & Hb & Ht); [lia|].
    destruct Hend' as [->|(b' & Hb' & Ht')]; [|congruence].
    apply index_Some_range in Hb. lia.
Qed.

(** What [decodeByte] returns, by the first byte that is not white space. *)
Lemma decodeByte_spec_aux (input : list byte) (pos : Z) :
  0 ≤ pos →
  ∃ j, pos ≤ j ∧
    (∀ i, pos ≤ i < j → ∃ b, index input i = Some b ∧ isSpace b = true) ∧
    ((decodeByte input pos = Err (errUnexpectedEndOfJSON "float" j) ∧
      ∀ c, index input j = Some c → isSpace c = false ∧ isNumberStart c = false) ∨
     (∃ c stop,
        index input j = Some c ∧ isNumberStart c = true ∧
        decodeByte input pos = Ok (slice input j stop, stop) ∧
        j < stop ≤ len input ∧
        (∀ i, j < i < stop → ∃ b, index input i = Some b ∧ inFloatTable b = true) ∧
        (stop = len input ∨ ∃ b, index input stop = Some b ∧ inFloatTable b = false))).
Proof.
  intros Hpos. destruct (Z_le_gt_dec pos (len input)) as [Hle|Hgt]; cycle 1.
  { exists pos. split; [lia|]. split; [lia|]. left. split.
    - unfold decodeByte. by replace (Z.to_nat (len input - pos)) with O by lia.
    - intros c Hc. apply index_Some_range in Hc. lia. }
  destruct (first_non_space input pos) as (j & Hj & Hsp & Hns); [lia|].
  exists j. split; [lia|]. split; [done|].
  destruct (index input j) as [c|] eqn:Hc; cycle 1.
  { left. split; [|done]. unfold decodeByte.
    apply decodeByte_loop_unexpected; [lia|lia|done|done|]. by rewrite Hc. }
  destruct (isNumberStart c) eqn:Hstart.
  - right. destruct (decodeByte_number_spec input j c Hc Hstart)
      as (stop & Hd & Hr & Hin & Hend).
    exists c, stop. split; [done|]. split; [done|]. split; [|done].
    unfold decodeByte in *. rewrite <- Hd.
    apply decodeByte_loop_skip; [lia|lia|done|done].
  - left. split.
    + unfold decodeByte. apply decodeByte_loop_unexpected; [lia|lia|done|done|].
      intros c' Hc'. rewrite Hc in Hc'. injection Hc' as <-. split; [|done].
      by apply Hns.
    + intros c' [= <-]. split; [|done]. by apply Hns.
Qed.

(** X1.  [decodeByte], called with a cursor that is not negative, does not
    panic.  It steps over white space up to a position [j]; if [j] holds [-]
    or a digit it returns the bytes from [j] up to the first later byte
    outside the table (or the end of the buffer) with the position of that
    byte as new cursor; if [j] is the end of the buffer or holds any other
    byte it returns [errUnexpectedEndOfJSON] with the offset [j]. *)
Theorem decodeByte_spec (input : list byte) (pos : Z) :
  0 ≤ pos →
  ∃ j, pos ≤ j ∧
    (∀ i, pos ≤ i < j → ∃ b, index input i = Some b ∧ isSpace b = true) ∧
    ((decodeByte input pos = Err (errUnexpectedEndOfJSON "float" j) ∧
      ∀ c, index input j = Some c → isSpace c = false ∧ isNumberStart c = false) ∨
     (∃ c stop,
        index input j = Some c ∧ isNumberStart c = true ∧
        decodeByte input pos = Ok (slice input j stop, stop) ∧
        j < stop ≤ len input ∧
        (∀ i, j < i < stop → ∃ b, index input i = Some b ∧ inFloatTable b = true) ∧
        (stop = len input ∨ ∃ b, index input stop = Some b ∧ inFloatTable b = false))).
Proof. apply decodeByte_spec_aux. Qed.

Lemma decodeByte_spec_witness :
  let input := bytes "  12," in
  ∃ j, 0 ≤ j ∧
    (∀ i, 0 ≤ i < j → ∃ b, index input i = Some b ∧ isSpace b = true) ∧
    ((decodeByte input 0 = Err (errUnexpectedEndOfJSON "float" j) ∧
      ∀ c, index input j = Some c → isSpace c = false ∧ isNumberStart c = false) ∨
     (∃ c stop,
        index input j = Some c ∧ isNumberStart c = true ∧
        decodeByte input 0 = Ok (slice input j stop, stop) ∧
        j < stop ≤ len input ∧
        (∀ i, j < i < stop → ∃ b, index input i = Some b ∧ inFloatTable b = true) ∧
        (stop = len input ∨ ∃ b, index input stop = Some b ∧ inFloatTable b = false))).
Proof. apply (decodeByte_spec (bytes "  12,") 0). lia. Defined.
(** X2.  The token that [decodeByte] returns is not empty, is the part of
    the buffer that ends at the returned cursor, and is a number for the
    scanner itself: scanning the token alone returns all of it. *)
Theorem decodeByte_token_rescans (input : list byte) (pos : Z) (num : list byte) (c : Z) :
  0 ≤ pos →
  decodeByte input pos = Ok (num, c) →
  (∃ start, pos ≤ start < c ∧ c ≤ len input ∧
            num = slice input start c ∧ len num = c - start) ∧
  decodeByte num 0 = Ok (num, len num).
Proof.
  intros Hpos Hd.
  destruct (decodeByte_spec_aux input pos Hpos) as (j & Hj & _ & [[He _]|Hok]);
    [congruence|].
  destruct Hok as (c0 & stop & Hc0 & Hstart & Hd' & Hr & Hin & _).
  rewrite Hd in Hd'. injection Hd' as -> ->.
  pose proof (index_Some_range _ _ _ Hc0) as Hrj.
  assert (Hlen : len (slice input j stop) = stop - j) by (apply len_slice; lia).
  split; [exists j; split; [lia|]; split; [lia|done]|].
  assert (H0 : index (slice input j stop) 0 = Some c0).
  { rewrite index_slice by lia. by rewrite Z.add_0_r. }
  destruct (decodeByte_number_spec _ 0 c0 H0 Hstart) as (stop' & Hd' & Hr' & _ & Hend').
  assert (stop' = len (slice input j stop)) as ->.
  { destruct Hend' as [|(b & Hb & Ht)]; [done|].
    pose proof (index_Some_range _ _ _ Hb) as Hrb.
    rewrite index_slice in Hb by lia.
    destruct (Hin (j + stop')) as (b' & Hb' & Ht'); [lia|]. congruence. }
  by rewrite Hd', slice_all.
Qed.

Lemma decodeByte_token_rescans_witness :
  (∃ start, 0 ≤ start < 6 ∧ 6 ≤ len (bytes " -1.5e}") ∧
            bytes "-1.5e" = slice (bytes " -1.5e}") start 6 ∧
            len (bytes "-1.5e") = 6 - start) ∧
  decodeByte (bytes "-1.5e") 0 = Ok (bytes "-1.5e", len (bytes "-1.5e")).
Proof.
  apply (decodeByte_token_rescans (bytes " -1.5e}") 0 (bytes "-1.5e") 6);
    [lia|reflexivity].
Defined.

(** The loop of [decodeStreamByte] steps over white space, refilling on the
    way, and hands a stream whose cursor is on [-] or on a digit to
    [floatBytes]. *)
Lemma decodeStreamByte_loop_number fuel s j c :
  sentinel_terminated s →
  0 ≤ cursor s ≤ j → cursor s < len (buf s) →
  (floatBytes_fuel s ≤ fuel)%nat →
  (∀ i, cursor s ≤ i < j →
        ∃ b, index (stream_input s) i = Some b ∧ isSpace b = true) →
  index (stream_input s) j = Some c →
  isNumberStart c = true →
  ∃ s1, sentinel_terminated s1 ∧ cursor s1 = j ∧ offset s1 = offset s ∧
        stream_input s1 = stream_input s ∧ char s1 = Some c ∧
        decodeStreamByte_loop fuel s =
        match floatBytes s1 with
        | None => None
        | Some (Ok (s', num)) => Some (s', Ok num)
        | Some (Err e) => Some (s1, Err e)
        | Some Panic => Some (s1, Panic)
        end.
Proof.
  revert s. induction fuel as [|fuel IH]; intros s Hs Hc Hb Hfuel Hsp Hx Hstart.
  { unfold floatBytes_fuel in Hfuel. lia. }
  simpl. destruct (index_in_range (buf s) (cursor s)) as [c0 Hc0]; [lia|].
  change (char s) with (index (buf s) (cursor s)). rewrite Hc0.
  assert (Hinp : c0 ≠ nul → index (stream_input s) (cursor s) = Some c0).
  { intros Hn. by apply (char_not_nul s c0 Hs Hc0 Hn). }
  assert (Hnsp : isSpace c = false) by by apply isNumberStart_not_space.
  assert (Hhere : isSpace c0 = false → c0 ≠ nul → cursor s = j ∧ c0 = c).
  { intros Hns Hn. pose proof (Hinp Hn) as Hi.
    destruct (decide (cursor s = j)) as [Heq|Hne].
    - split; [done|]. rewrite Heq in Hi. congruence.
    - destruct (Hsp (cursor s)) as (b & Hxb & Hsb); [lia|]. congruence. }
  destruct (isSpace c0) eqn:Hs0.
  - assert (Hn : c0 ≠ nul) by (intros ->; by rewrite isSpace_nul in Hs0).
    assert (Hlt : cursor s < j).
    { destruct (decide (cursor s = j)) as [Heq|]; [|lia].
      pose proof (Hinp Hn) as Hi. rewrite Heq in Hi. congruence. }
    destruct (char_not_nul s c0 Hs Hc0 Hn) as [Hr _].
    destruct (IH (set_cursor s (cursor s + 1))) as (s1 & H1);
      [done|simpl; lia|simpl; lia| | |done|done|].
    + unfold floatBytes_fuel in *. simpl. lia.
    + intros i Hi. apply Hsp. simpl in Hi. lia.
    + exists s1. done.
  - destruct (isNumberStart c0) eqn:Hn0.
    + assert (Hn : c0 ≠ nul) by (intros ->; by rewrite isNumberStart_nul in Hn0).
      destruct (Hhere eq_refl Hn) as [Hj ->].
      exists s. split; [done|]. split; [done|]. split; [done|]. split; [done|].
      split; [done|]. by destruct (floatBytes s) as [[[s' num]|e|]|].
    + destruct (Byte.eqb c0 nul) eqn:Hz.
      * destruct (read s) as [[|] s2] eqn:Hr.
        -- destruct (read_more s s2 Hr Hs) as (Hs2 & Hc2 & Ho2 & Hi2 & Hl2 & Hf2);
             [lia|].
           destruct (IH s2) as (s1 & Hs1 & Hc1 & Ho1 & Hi1 & Hch1 & Hl);
             [done|lia|lia| | |by rewrite Hi2|done|].
           ++ unfold floatBytes_fuel in *. rewrite Hc2. lia.
           ++ rewrite Hi2, Hc2. done.
           ++ exists s1. split; [done|]. split; [done|]. split; [congruence|].
              split; [congruence|]. done.
        -- destruct (read_no_more s s2 Hr) as (Hb2 & Hc2 & Ho2 & Hav).
           apply eqb_nul in Hz as ->. exfalso.
           destruct (decide (cursor s < len (buf s) - 1)) as [Hlt|Hge].
           ++ pose proof (char_data s Hs Hlt) as Hch. unfold char in Hch.
              rewrite Hc0 in Hch.
              destruct (decide (cursor s = j)) as [Heq|Hne].
              ** rewrite Heq in Hch. rewrite Hx in Hch. injection Hch as <-.
                 by rewrite isNumberStart_nul in Hstart.
              ** destruct (Hsp (cursor s)) as (b & Hxb & Hsb); [lia|].
                 rewrite <- Hch in Hxb. injection Hxb as <-.
                 by rewrite isSpace_nul in Hsb.
           ++ apply index_Some_range in Hx.
              rewrite len_stream_input, Hav in Hx.
              rewrite (sentinel_len s Hs) in Hb, Hge. unfold len in Hx at 2.
              simpl in Hx. lia.
      * assert (Hn : c0 ≠ nul).
        { intros ->. by rewrite (proj2 (eqb_nul nul)) in Hz. }
        destruct (Hhere eq_refl Hn) as [_ ->]. congruence.
Qed.

(** The stream scanner and the buffer scanner agree. *)
Lemma decodeStreamByte_agrees_with_decodeByte_aux (s : stream) :
  sentinel_terminated s →
  0 ≤ cursor s < len (buf s) →
  ∃ s',
    decodeStreamByte s =
    Some (s', match decodeByte (stream_input s) (cursor s) with
              | Ok (num, _) => Ok num
              | Err e => Err (shift_error (offset s) e)
              | Panic => Panic
              end) ∧
    (∀ num c, decodeByte (stream_input s) (cursor s) = Ok (num, c) → cursor s' = c).
Proof.
  intros Hs Hc.
  assert (Hle : cursor s ≤ len (stream_input s)).
  { rewrite len_stream_input. rewrite (sentinel_len s Hs) in Hc.
    pose proof (len_nonneg (avail (r s))). lia. }
  destruct (decodeByte_spec_aux (stream_input s) (cursor s)) as (j & Hj & Hsp & Hres);
    [lia|].
  assert (Hjl : j ≤ len (stream_input s)).
  { destruct (Z_le_gt_dec j (len (stream_input s))) as [|Hgt]; [done|].
    destruct (Hsp (len (stream_input s))) as (b & Hb & _); [lia|].
    apply index_Some_range in Hb. lia. }
  destruct Hres as [[He Hbad]|(c & stop & Hx & Hstart & Hd & Hr & Hin & Hend)].
  - destruct (decodeStreamByte_unexpected s j) as [s' Hl]; [done|lia|lia|done|done|done|].
    exists s'. rewrite He, Hl. split; [done|]. intros num c [=].
  - destruct (decodeStreamByte_loop_number (floatBytes_fuel s) s j c)
      as (s1 & Hs1 & Hc1 & Ho1 & Hi1 & Hch1 & Hl); [done|lia|lia|done|done|done|done|].
    destruct (floatBytes_number_spec s1 c Hs1 Hch1 Hstart)
      as (s' & stop' & Hf & Hcs' & Hr' & Hin' & Hend').
    rewrite Hi1, Hc1 in Hf. rewrite Hi1, Hc1 in Hr'. rewrite Hi1 in Hend'.
    assert (Hin2 : ∀ i, j < i < stop' →
              ∃ b, index (stream_input s) i = Some b ∧ inFloatTable b = true).
    { intros i Hi. rewrite <- Hi1. apply Hin'. lia. }
    assert (stop' = stop) as ->.
    { by apply (token_end_unique (stream_input s) j); [lia|lia|..]. }
    exists s'. unfold decodeStreamByte. rewrite Hl, Hf, Hd. split; [done|].
    intros num c' [= _ <-]. done.
Qed.

(** X3.  On a stream that ends with the sentinel, [decodeStreamByte] returns
    what [decodeByte] returns on the whole input of the stream, however the
    reader cuts the input into chunks: the same token, with the cursor behind
    it, or the same error, with the offset of the stream added to its
    position. *)
Theorem decodeStreamByte_agrees_with_decodeByte (s : stream) :
  sentinel_terminated s →
  0 ≤ cursor s < len (buf s) →
  ∃ s',
    decodeStreamByte s =
    Some (s', match decodeByte (stream_input s) (cursor s) with
              | Ok (num, _) => Ok num
              | Err e => Err (shift_error (offset s) e)
              | Panic => Panic
              end) ∧
    (∀ num c, decodeByte (stream_input s) (cursor s) = Ok (num, c) → cursor s' = c).
Proof. apply decodeStreamByte_agrees_with_decodeByte_aux. Qed.

Lemma decodeStreamByte_agrees_with_decodeByte_witness :
  let s := newStream (bytes " ") [bytes " -1"; bytes ".5,"] in
  ∃ s',
    decodeStreamByte s =
    Some (s', match decodeByte (stream_input s) (cursor s) with
              | Ok (num, _) => Ok num
              | Err e => Err (shift_error (offset s) e)
              | Panic => Panic
              end) ∧
    (∀ num c, decodeByte (stream_input s) (cursor s) = Ok (num, c) → cursor s' = c).
Proof.
  apply (decodeStreamByte_agrees_with_decodeByte
           (newStream (bytes " ") [bytes " -1"; bytes ".5,"])).
  - by exists (bytes " ").
  - vm_compute. split; [discriminate|reflexivity].
Defined.

(** X4.  The loops of [floatBytes] and of [decodeStreamByte] come to an end
    on every stream: within [floatBytes_fuel] iterations each of them
    returns, with a result or with a panic. *)
Theorem stream_scanners_return (s : stream) :
  is_Some (floatBytes s) ∧ is_Some (decodeStreamByte s).
Proof. split; [apply floatBytes_returns|apply decodeStreamByte_returns]. Qed.
End ScannerFacts.

(** ** The float decoder node *)
Section FloatNodeFacts.
Import DecodeFloat.
Variable float64 : Type.
Variable ParseFloat : list byte → float64 + error.
Variable Mem : Type.
Variable store : floatWriter → Z → float64 → Mem → Mem.

#[local] Abbreviation decode := (decode float64 ParseFloat Mem store).
#[local] Abbreviation decodeStream := (decodeStream float64 ParseFloat Mem store).

(** X5.  [floatDecoder.decode], called with a cursor that is not negative,
    does not panic; when it returns an error, whether from the scanner or
    from [ParseFloat], the destination is as it was; when it returns a
    cursor, that cursor is the one of the scanner and the destination was
    written once, with the number that [ParseFloat] gives for the token. *)
Theorem floatDecoder_decode_spec (d : floatDecoder) (input : list byte) (pos p : Z)
    (m : Mem) :
  0 ≤ pos →
  match decode d input pos p m with
  | (m', Ok c) =>
      ∃ num f, decodeByte input pos = Ok (num, c) ∧ ParseFloat num = inl f ∧
               m' = store (op d) p f m
  | (m', Err e) =>
      m' = m ∧ (decodeByte input pos = Err e ∨
                ∃ num c, decodeByte input pos = Ok (num, c) ∧ ParseFloat num = inr e)
  | (_, Panic) => False
  end.
Proof.
  intros Hpos. unfold DecodeFloat.decode.
  destruct (decodeByte_spec_aux input pos Hpos) as (j & _ & _ & [[-> _]|Hok]).
  { split; [done|]. by left. }
  destruct Hok as (c0 & stop & _ & _ & -> & _).
  destruct (ParseFloat _) as [f|e] eqn:Hp.
  - eauto.
  - split; [done|]. right. eauto.
Qed.

(** X6.  On a stream that ends with the sentinel, [decodeStream] leaves the
    destination as [decode] does on the whole input of the stream, and it
    succeeds exactly when [decode] does: the cut of the input into chunks
    does not show in the decoded number. *)
Theorem decodeStream_agrees_with_decode (d : floatDecoder) (s : stream) (p : Z) (m : Mem) :
  sentinel_terminated s →
  0 ≤ cursor s < len (buf s) →
  ∃ s' res,
    decodeStream d s p m = Some (s', (decode d (stream_input s) (cursor s) p m).1, res) ∧
    (res = Ok tt ↔ ∃ c, (decode d (stream_input s) (cursor s) p m).2 = Ok c) ∧
    res ≠ Panic.
Proof.
  intros Hs Hc.
  destruct (decodeStreamByte_agrees_with_decodeByte_aux s Hs Hc) as (s' & Hl & _).
  unfold DecodeFloat.decodeStream, DecodeFloat.decode. rewrite Hl.
  destruct (decodeByte_spec_aux (stream_input s) (cursor s)) as (j & _ & _ & [[-> _]|Hok]);
    [lia| |].
  - eexists _, _. split; [done|]. split; [|done]. split; [done|]. by intros [c [=]].
  - destruct Hok as (c0 & stop & _ & _ & -> & _).
    destruct (ParseFloat _) as [f|e]; eexists _, _; (split; [done|]); simpl.
    + split; [|done]. split; eauto.
    + split; [|done]. split; [done|]. by intros [c [=]].
Qed.

End FloatNodeFacts.

Section FloatNodeEvaluations.
Import DecodeFloat.

Lemma floatDecoder_decode_spec_witness :
  match DecodeFloat.decode Z (λ num, inl (len num)) (list Z) (λ _ _ f m, f :: m)
          (newFloatDecoder writeFloat64) (bytes " 1.5 ") 0 0 [] with
  | (m', Ok c) =>
      ∃ num f, decodeByte (bytes " 1.5 ") 0 = Ok (num, c) ∧
               inl (B := error) (len num) = inl f ∧ m' = [f]
  | (m', Err e) =>
      m' = [] ∧ (decodeByte (bytes " 1.5 ") 0 = Err e ∨
                 ∃ num c, decodeByte (bytes " 1.5 ") 0 = Ok (num, c) ∧
                          inl (B := error) (len num) = inr e)
  | (_, Panic) => False
  end.
Proof.
  apply (floatDecoder_decode_spec Z (λ num, inl (len num)) (list Z) (λ _ _ f m, f :: m)
           (newFloatDecoder writeFloat64) (bytes " 1.5 ") 0 0 []).
  lia.
Defined.

Lemma decodeStream_agrees_with_decode_witness :
  let s := newStream (bytes "1") [bytes ".5"; bytes " "] in
  ∃ s' res,
    DecodeFloat.decodeStream Z (λ num, inl (len num)) (list Z) (λ _ _ f m, f :: m)
      (newFloatDecoder writeFloat64) s 0 []
    = Some (s', (DecodeFloat.decode Z (λ num, inl (len num)) (list Z) (λ _ _ f m, f :: m)
                   (newFloatDecoder writeFloat64) (stream_input s) (cursor s) 0 []).1,
            res) ∧
    (res = Ok tt ↔
     ∃ c, (DecodeFloat.decode Z (λ num, inl (len num)) (list Z) (λ _ _ f m, f :: m)
             (newFloatDecoder writeFloat64) (stream_input s) (cursor s) 0 []).2 = Ok c) ∧
    res ≠ Panic.
Proof.
  apply (decodeStream_agrees_with_decode Z (λ num, inl (len num)) (list Z)
           (λ _ _ f m, f :: m) (newFloatDecoder writeFloat64)
           (newStream (bytes "1") [bytes ".5"; bytes " "]) 0 []).
  - by exists (bytes "1").
  - vm_compute. split; [discriminate|reflexivity].
Defined.
End FloatNodeEvaluations.

(** ** The compiler of the decoder, continued *)
Section CompilerExtras.
Import Decode.
Variable ToLower : string → string.
Variable Size : rtype → Z.

(** What [compile] returns, by kind. *)
Lemma compile_nil_iff_unhandled_aux (typ : rtype) :
  ∃ d, compile ToLower Size typ = Ok d ∧ (d = None ↔ unhandled (Kind typ) = true).
Proof.
  destruct (compile_total ToLower Size typ) as [d Hd]. exists d. split; [done|].
  destruct typ as [b|e|e|n e|k e|e|name fields]; simpl in Hd |- *.
  - destruct b; injection Hd as <-; by split.
  - destruct (compile_total ToLower Size e) as [d' Hd']. rewrite Hd' in Hd.
    injection Hd as <-. by split.
  - destruct (compile_total ToLower Size e) as [d' Hd']. rewrite Hd' in Hd.
    injection Hd as <-. by split.
  - destruct (compile_total ToLower Size e) as [d' Hd']. rewrite Hd' in Hd.
    injection Hd as <-. by split.
  - injection Hd as <-. done.
  - injection Hd as <-. done.
  - destruct (compileStruct_loop _ _ _ _) as [fm|e|]; [|done..].
    injection Hd as <-. by split.
Qed.

(** X7.  [compile] never returns an error: for the kinds that have no
    [case] in its [switch] it returns at once, a nil decoder and a nil
    error; and whenever it returns, the error is nil and the decoder is nil
    exactly for those kinds. *)
Theorem compile_returns_no_error (typ : rtype) :
  (∀ e, compile ToLower Size typ ≠ Err e) ∧
  (unhandled (Kind typ) = true → compile ToLower Size typ = Ok None) ∧
  (∀ dec, compile ToLower Size typ = Ok dec →
          (dec = None ↔ unhandled (Kind typ) = true)).
Proof.
  destruct (compile_nil_iff_unhandled_aux typ) as (d & Hd & Hnil).
  split; [|split].
  - intros e. by rewrite Hd.
  - intros Hu. rewrite Hd. f_equal. by apply Hnil.
  - intros dec. rewrite Hd. by intros [= <-].
Qed.

Lemma compileStruct_loop_filter (cmp : rtype → result (option decoder)) fields m0 :
  compileStruct_loop ToLower cmp fields m0
  = compileStruct_loop ToLower cmp
      (filter (λ f, isIgnoredStructField f = false) fields) m0.
Proof.
  revert m0. induction fields as [|f fields IH]; intros m0; [done|].
  destruct (isIgnoredStructField f) eqn:Hig.
  - rewrite filter_cons_False by congruence. simpl. by rewrite Hig.
  - rewrite filter_cons_True by done. simpl. rewrite Hig.
    destruct (cmp (Type_ f)); [apply IH|done..].
Qed.


Lemma Split_no_sep o sep : occurs sep o = false → Split o sep = [o].
Proof.
  induction o as [|a o IH]; simpl; [done|].
  intros [Ha Ho]%orb_false_iff. rewrite Ha, (IH Ho). done.
Qed.

Lemma Split_first o sep rest :
  occurs sep o = false → Split (o +:+ String sep rest) sep = o :: Split rest sep.
Proof.
  induction o as [|a o IH]; simpl.
  - intros _. by rewrite Ascii.eqb_refl.
  - intros [Ha Ho]%orb_false_iff. rewrite Ha, (IH Ho). done.
Qed.

(** X9.  The serialized name of a field is the text of its [json] tag before
    the first comma, and the declared name when that text is empty; what
    follows the first comma has no influence. *)
Theorem keyNameOf_first_option (f : StructField) (o rest : string) :
  occurs "," o = false →
  getTag f = o ∨ getTag f = o +:+ String "," rest →
  keyNameOf f = if String.eqb o EmptyString then Name f else o.
Proof.
  intros Ho Htag. unfold keyNameOf.
  destruct Htag as [-> | ->].
  - rewrite (Split_no_sep _ _ Ho). by destruct (String.eqb o EmptyString).
  - rewrite (Split_first _ _ _ Ho). by destruct (String.eqb o EmptyString).
Qed.
End CompilerExtras.

Section CompilerEvaluations.
Import Decode.

Lemma compile_returns_no_error_witness :
  compile ToLowerASCII wordSize (MapOf (Basic TString) (Basic TInt)) = Ok None ∧
  (Some (intDecoder writeInt) = None
   ↔ unhandled (Kind (Basic TInt)) = true).
Proof.
  split.
  - apply (compile_returns_no_error ToLowerASCII wordSize
             (MapOf (Basic TString) (Basic TInt))). reflexivity.
  - apply (compile_returns_no_error ToLowerASCII wordSize (Basic TInt)). reflexivity.
Defined.

Lemma keyNameOf_first_option_witness :
  keyNameOf (mkStructField "Name" EmptyString false [("json", "n,omitempty,string")]
               (Basic TString) 0) = "n"%string ∧
  keyNameOf (mkStructField "Name" EmptyString false [("json", ",omitempty")]
               (Basic TString) 0) = "Name"%string.
Proof.
  split.
  - apply (keyNameOf_first_option
             (mkStructField "Name" EmptyString false [("json", "n,omitempty,string")]
                (Basic TString) 0) "n" "omitempty,string"); [reflexivity|].
    right. reflexivity.
  - apply (keyNameOf_first_option
             (mkStructField "Name" EmptyString false [("json", ",omitempty")]
                (Basic TString) 0) EmptyString "omitempty"); [reflexivity|].
    right. reflexivity.
Defined.
End CompilerEvaluations.

(** ** [Decoder.Decode] and [Decoder.decode], continued *)
Section DecodeExtras.
Import Decode.
Variable ToLower : string → string.
Variable Size : rtype → Z.
Variable Mem : Type.
Variable decode_node : decoder → context → Z → Mem → context * Mem * option error.

#[local] Abbreviation Decode := (Decode.Decode ToLower Size Mem decode_node).
#[local] Abbreviation decode := (Decode.decode ToLower Size Mem decode_node).
#[local] Abbreviation Decode_all := (Decode.Decode_all ToLower Size Mem decode_node).
#[local] Abbreviation Decode_loop := (Decode.Decode_loop Mem decode_node).
#[local] Abbreviation cachedOrCompile := (Decode.cachedOrCompile ToLower Size).
#[local] Abbreviation cache_sound := (Decode.cache_sound ToLower Size).

#[local] Ltac pointer_kind' :=
  rewrite bool_decide_eq_false_2 by (let H := fresh in intros H; by apply H).

(** For a pointer type the lookup of lines 113-123 (and 68-78) ends with a
    decoder, never with an error. *)
Lemma cachedOrCompile_Ptr st elem :
  ∃ st' dec,
    cachedOrCompile st (PtrTo elem) (typeString (PtrTo elem)) = (st', Ok dec) ∧
    ctxPool st' = ctxPool st ∧
    ((cachedDecoder st !! typeString (PtrTo elem) = Some dec ∧ st' = st) ∨
     (cachedDecoder st !! typeString (PtrTo elem) = None ∧
      compile ToLower Size elem = Ok dec ∧
      cachedDecoder st' = <[typeString (PtrTo elem) := dec]> (cachedDecoder st) ∧
      compiled st' = compiled st ++ [typeString (PtrTo elem)])).
Proof.
  destruct (cachedDecoder st !! typeString (PtrTo elem)) as [dec|] eqn:Hc.
  - exists st, dec. rewrite (cachedOrCompile_hit _ _ _ _ _ _ Hc). eauto.
  - destruct (cachedOrCompile_miss ToLower Size _ _ Hc) as (dec & Hd & ->).
    eexists _, dec. split; [done|]. split; [done|]. right. eauto.
Qed.

Lemma Decode_rejects_non_pointer_aux st d src v m :
  Kind (typ v) ≠ reflect.Ptr →
  Decode st d v m = (st, d, m, Err ErrDecodePointer) ∧
  decode st d src v m = (st, m, Err ErrDecodePointer).
Proof.
  intros Hk. unfold Decode.Decode, Decode.decode.
  by rewrite bool_decide_eq_true_2.
Qed.

(** X11.  When the first [Read] delivers bytes together with an error other
    than [io.EOF], [Decode] returns that very error; the bytes are dropped,
    no node runs, and the destination is what it was. *)
Theorem Decode_surfaces_reader_error st v m b data e rd :
  Kind (typ v) = reflect.Ptr →
  e ≠ io_EOF →
  ∃ st', Decode st (NewDecoder (mkRead (b :: data) (Some e) :: rd)) v m
         = (st', NewDecoder rd, m, Err e) ∧
         ctxPool st' ≠ [].
Proof.
  intros Hk He. unfold Decode.Decode. pointer_kind'.
  destruct (Kind_Ptr_inv _ Hk) as [elem Ht]. rewrite Ht.
  destruct (cachedOrCompile_Ptr st elem) as (st' & dec & -> & _ & _).
  destruct (ctxPool_Get (ctxPool st')) as [ctx pool].
  cbn -[len]. replace (len (b :: data) =? 0) with false
    by (symmetry; apply Z.eqb_neq; unfold len; simpl length; lia).
  rewrite bool_decide_eq_false_2 by congruence. cbn. eauto.
Qed.

(** [Decode] with the observing runtime: every non-empty chunk reaches the
    node, by itself and in the order of delivery. *)
Lemma Decode_loop_observe cs node ctx p m :
  Forall (λ c, c ≠ []) cs →
  ∃ ctx', Decode.Decode_loop (list (list byte)) observe (chunks cs) (Some node) ctx p m
          = ([], ctx', m ++ cs, Ok tt).
Proof.
  intros Hcs. revert ctx m. induction Hcs as [|c cs Hc _ IH]; intros ctx m.
  - exists ctx. simpl. by rewrite app_nil_r.
  - destruct c as [|b c]; [done|]. cbn -[len].
    replace (len (b :: c) =? 0) with false
      by (symmetry; apply Z.eqb_neq; unfold len; simpl length; lia).
    cbn -[len]. destruct (IH (mkContext (b :: c) (len (b :: c))) (m ++ [b :: c]))
      as [ctx' Hl].
    exists ctx'. unfold chunks in Hl. rewrite Hl. by rewrite <- app_assoc.
Qed.

(** X13.  The published decoders are results of the compiler: after any
    sequence of [Decode] calls from the initial state, every entry of
    [cachedDecoder] is filed under the name of a pointer type and holds what
    [compile] returns for an element type of that name. *)
Lemma Decode_cache_sound st d v m :
  cache_sound st → cache_sound (Decode st d v m).1.1.1.
Proof.
  intros Hst.
  destruct (decide (Kind (typ v) = reflect.Ptr)) as [Hk|Hk];
    [|by rewrite (Decode_not_pointer _ _ _ _ _ _ _ _ Hk)].
  destruct (cachedDecoder st !! typeString (typ v)) as [dec|] eqn:Hc.
  - destruct (Decode_hit ToLower Size Mem decode_node st d v m dec Hk Hc) as [_ Hm].
    unfold Decode.cache_sound. by rewrite Hm.
  - destruct (Decode_miss ToLower Size Mem decode_node st d v m Hk Hc)
      as (elem & dec & Ht & Hd & _ & Hm).
    unfold Decode.cache_sound. rewrite Hm. intros name dec'.
    destruct (decide (typeString (typ v) = name)) as [<-|Hne].
    + rewrite lookup_insert_eq. intros [= <-]. exists elem. by rewrite Ht.
    + rewrite lookup_insert_ne by done. apply Hst.
Qed.

Theorem Decode_all_cache_sound vs d m :
  cache_sound (Decode_all init d vs m).1.1.1.
Proof.
  assert (H : ∀ st d m, cache_sound st → cache_sound (Decode_all st d vs m).1.1.1).
  { induction vs as [|v vs' IH]; intros st d' m' Hst; simpl; [done|].
    pose proof (Decode_cache_sound st d' v m' Hst) as H1.
    destruct (Decode st d' v m') as [[[st1 d1] m1] res1]. simpl in H1.
    specialize (IH st1 d1 m1 H1).
    by destruct (Decode_all st1 d1 vs' m1) as [[[st2 d2] m2] ress]. }
  apply H. intros name dec Hl. cbn in Hl. by rewrite lookup_empty in Hl.
Qed.

(** The state that [Decode] and [decode] leave, as far as the cache and the
    record of compilations go, is the one of the lookup of lines 113-123. *)
Lemma Decode_state_Ptr st d elem p m :
  cachedDecoder (Decode st d (mkHeader (PtrTo elem) p) m).1.1.1
  = cachedDecoder (cachedOrCompile st (PtrTo elem) (typeString (PtrTo elem))).1 ∧
  compiled (Decode st d (mkHeader (PtrTo elem) p) m).1.1.1
  = compiled (cachedOrCompile st (PtrTo elem) (typeString (PtrTo elem))).1.
Proof.
  unfold Decode.Decode. cbn [typ]. pointer_kind'.
  destruct (cachedOrCompile_Ptr st elem) as (st' & dec & -> & _ & _).
  destruct (ctxPool_Get (ctxPool st')) as [ctx pool].
  by destruct (Decode_loop _ _ _ _ _) as [[[rd ctx'] m'] res].
Qed.

Lemma decode_state_Ptr st d src elem p m :
  cachedDecoder (decode st d src (mkHeader (PtrTo elem) p) m).1.1
  = cachedDecoder (cachedOrCompile st (PtrTo elem) (typeString (PtrTo elem))).1 ∧
  compiled (decode st d src (mkHeader (PtrTo elem) p) m).1.1
  = compiled (cachedOrCompile st (PtrTo elem) (typeString (PtrTo elem))).1.
Proof.
  unfold Decode.decode. cbn [typ]. pointer_kind'.
  destruct (cachedOrCompile_Ptr st elem) as (st' & dec & -> & _ & _).
  destruct (ctxPool_Get (ctxPool st')) as [ctx pool].
  destruct dec as [node|]; [|done].
  by destruct (decode_node _ _ _ _) as [[ctx' m'] [e|]].
Qed.

(** X14.  Neither [Decode] nor [decode] ever removes or replaces an entry
    of [cachedDecoder]: what is published stays published, with the same
    decoder. *)
Theorem cachedDecoder_only_grows st d src v m :
  cachedDecoder st ⊆ cachedDecoder (Decode st d v m).1.1.1 ∧
  cachedDecoder st ⊆ cachedDecoder (decode st d src v m).1.1.
Proof.
  destruct (decide (Kind (typ v) = reflect.Ptr)) as [Hk|Hk]; cycle 1.
  { destruct (Decode_rejects_non_pointer_aux st d src v m Hk) as [-> ->]. done. }
  destruct (Kind_Ptr_inv _ Hk) as [elem Ht]. destruct v as [t p]. simpl in Ht. subst t.
  destruct (Decode_state_Ptr st d elem p m) as [-> _].
  destruct (decode_state_Ptr st d src elem p m) as [-> _].
  destruct (cachedOrCompile_Ptr st elem)
    as (st' & dec & -> & _ & [[_ ->]|(Hn & _ & Hm & _)]); simpl.
  - done.
  - rewrite Hm. split; by apply insert_subseteq.
Qed.

(** X15.  For input that is not empty, [Decode] on a reader that delivers
    the input in one chunk does what [decode] does on the input: the same
    result, the same destination, the same cache and compilations, and,
    unless the decoder is nil and the call panics, the same pool. *)
Theorem Decode_one_chunk_is_decode st d b src v m :
  let D := Decode st (NewDecoder (chunks [b :: src])) v m in
  let U := decode st d (b :: src) v m in
  D.1.2 = U.1.2 ∧ D.2 = U.2 ∧
  cachedDecoder D.1.1.1 = cachedDecoder U.1.1 ∧
  compiled D.1.1.1 = compiled U.1.1 ∧
  (U.2 ≠ Panic → ctxPool D.1.1.1 = ctxPool U.1.1).
Proof.
  intros D U. subst D U.
  destruct (decide (Kind (typ v) = reflect.Ptr)) as [Hk|Hk]; cycle 1.
  { destruct (Decode_rejects_non_pointer_aux st (NewDecoder (chunks [b :: src]))
                (b :: src) v m Hk) as [-> _].
    destruct (Decode_rejects_non_pointer_aux st d (b :: src) v m Hk) as [_ ->]. done. }
  destruct (Kind_Ptr_inv _ Hk) as [elem Ht]. destruct v as [t p]. simpl in Ht. subst t.
  unfold Decode.Decode, Decode.decode. cbn [typ ptr r]. pointer_kind'.
  destruct (cachedOrCompile_Ptr st elem) as (st' & dec & -> & _ & _).
  destruct (ctxPool_Get (ctxPool st')) as [ctx pool].
  assert (Hlen : (len (b :: src) =? 0) = false).
  { apply Z.eqb_neq. unfold len. simpl length. lia. }
  cbn -[len]. rewrite Hlen. cbn.
  destruct dec as [node|]; [|done].
  by destruct (decode_node node _ p m) as [[ctx' m'] [e|]].
Qed.

(** X24.  The two entry points share the cache: a pointer type that went
    through [Decode] is not compiled again by [decode], and the other way
    round. *)
Theorem entry_points_share_cache st d src v m m' :
  Kind (typ v) = reflect.Ptr →
  compiled (decode (Decode st d v m).1.1.1 d src v m').1.1
  = compiled (Decode st d v m).1.1.1 ∧
  compiled (Decode (decode st d src v m).1.1 d v m').1.1.1
  = compiled (decode st d src v m).1.1.
Proof.
  intros Hk. destruct (Kind_Ptr_inv _ Hk) as [elem Ht].
  destruct v as [t p]. simpl in Ht. subst t.
  assert (Hhit : ∀ st1, is_Some (cachedDecoder st1 !! typeString (PtrTo elem)) →
    compiled (cachedOrCompile st1 (PtrTo elem) (typeString (PtrTo elem))).1
    = compiled st1).
  { intros st1 [dec Hdec]. by rewrite (cachedOrCompile_hit _ _ _ _ _ _ Hdec). }
  assert (Hpub : ∀ st0,
    is_Some (cachedDecoder (cachedOrCompile st0 (PtrTo elem)
                              (typeString (PtrTo elem))).1
             !! typeString (PtrTo elem))).
  { intros st0.
    destruct (cachedOrCompile_Ptr st0 elem)
      as (st' & dec & -> & _ & [[Hc ->]|(_ & _ & Hm & _)]); simpl.
    - eauto.
    - rewrite Hm, lookup_insert_eq. eauto. }
  split.
  - destruct (decode_state_Ptr (Decode st d (mkHeader (PtrTo elem) p) m).1.1.1
                d src elem p m') as [_ ->].
    apply Hhit. destruct (Decode_state_Ptr st d elem p m) as [-> _]. apply Hpub.
  - destruct (Decode_state_Ptr (decode st d src (mkHeader (PtrTo elem) p) m).1.1
                d elem p m') as [_ ->].
    apply Hhit. destruct (decode_state_Ptr st d src elem p m) as [-> _]. apply Hpub.
Qed.

(** X16.  [Decode] gives the context back to the pool on every path, also
    when the node fails or panics (the call of [Put] is deferred); [decode]
    gives it back after a run of the node, with or without error, but not
    when the decoder is nil and the call panics. *)
Theorem context_goes_back_to_pool st d src v m :
  Kind (typ v) = reflect.Ptr →
  length (ctxPool (Decode st d v m).1.1.1) = max 1 (length (ctxPool st)) ∧
  length (ctxPool (decode st d src v m).1.1)
  = match (decode st d src v m).2 with
    | Panic => pred (length (ctxPool st))
    | _ => max 1 (length (ctxPool st))
    end.
Proof.
  intros Hk. destruct (Kind_Ptr_inv _ Hk) as [elem Ht].
  destruct v as [t p]. simpl in Ht. subst t.
  unfold Decode.Decode, Decode.decode. cbn [typ ptr]. pointer_kind'.
  destruct (cachedOrCompile_Ptr st elem) as (st' & dec & -> & Hp & _).
  rewrite Hp. destruct (ctxPool st) as [|c0 pool]; simpl.
  - split.
    + by destruct (Decode_loop _ _ _ _ _) as [[[rd ctx'] m'] res].
    + destruct dec as [node|]; [|done].
      by destruct (decode_node _ _ _ _) as [[ctx' m'] [e|]].
  - split.
    + destruct (Decode_loop _ _ _ _ _) as [[[rd ctx'] m'] res]. simpl. lia.
    + destruct dec as [node|]; [|done].
      destruct (decode_node _ _ _ _) as [[ctx' m'] [e|]]; simpl; lia.
Qed.
End DecodeExtras.

Section DecodeEvaluations.
Import Decode.

(** X12.  [Decode] runs the decoder once on every chunk that the reader
    delivers, in the order of delivery and on that chunk alone, and returns
    [nil] when the reader has nothing more: with the observing runtime the
    buffers seen are exactly the chunks. *)
Theorem Decode_observes_every_chunk (ToLower : string → string) (Size : rtype → Z)
    (cs : list (list byte)) (elem : rtype) (p : Z) (m : list (list byte)) :
  Forall (λ c, c ≠ []) cs →
  unhandled (Kind elem) = false →
  ∃ st', Decode.Decode ToLower Size (list (list byte)) observe Decode.init
           (NewDecoder (chunks cs)) (mkHeader (PtrTo elem) p) m
         = (st', NewDecoder [], m ++ cs, Ok tt).
Proof.
  intros Hcs Hh. unfold Decode.Decode. cbn [typ ptr r].
  rewrite bool_decide_eq_false_2 by (intros H; by apply H).
  destruct (cachedOrCompile_miss ToLower Size Decode.init elem) as (dec & Hd & ->);
    [apply lookup_empty|].
  destruct (compile_nil_iff_unhandled_aux ToLower Size elem) as (dec' & Hd' & Hnil).
  rewrite Hd in Hd'. injection Hd' as <-.
  destruct dec as [node|]; [|rewrite (proj1 Hnil eq_refl) in Hh; done].
  cbn [ctxPool cachedDecoder compiled Decode.init ctxPool_Get].
  destruct (Decode_loop_observe cs node newContext p m Hcs) as [ctx' ->]. eauto.
Qed.

Lemma Decode_observes_every_chunk_witness :
  ∃ st', Decode.Decode ToLowerASCII wordSize (list (list byte)) observe Decode.init
           (NewDecoder (chunks [bytes "1"; bytes "2 "; bytes "3"]))
           (mkHeader (PtrTo (Basic TInt)) 0) []
         = (st', NewDecoder [], [] ++ [bytes "1"; bytes "2 "; bytes "3"], Ok tt).
Proof.
  apply (Decode_observes_every_chunk ToLowerASCII wordSize
           [bytes "1"; bytes "2 "; bytes "3"] (Basic TInt) 0 []).
  - repeat constructor; discriminate.
  - reflexivity.
Defined.

Lemma Decode_surfaces_reader_error_witness :
  ∃ st', Decode.Decode ToLowerASCII wordSize (list (list byte)) observe Decode.init
           (NewDecoder (mkRead ("1"%byte :: bytes "2") (Some (errOther "reset")) :: []))
           (mkHeader (PtrTo (Basic TInt)) 0) []
         = (st', NewDecoder [], [], Err (errOther "reset")) ∧
         ctxPool st' ≠ [].
Proof.
  apply (Decode_surfaces_reader_error ToLowerASCII wordSize (list (list byte)) observe).
  - reflexivity.
  - discriminate.
Defined.

Lemma context_goes_back_to_pool_witness :
  length (ctxPool (Decode.Decode ToLowerASCII wordSize (list (list byte)) observe
                     Decode.init (NewDecoder (chunks [bytes "1"]))
                     (mkHeader (PtrTo (MapOf (Basic TString) (Basic TInt))) 0) []).1.1.1)
  = max 1 (length (ctxPool Decode.init)) ∧
  length (ctxPool (Decode.decode ToLowerASCII wordSize (list (list byte)) observe
                     Decode.init (NewDecoder (chunks [bytes "1"])) (bytes "1")
                     (mkHeader (PtrTo (MapOf (Basic TString) (Basic TInt))) 0) []).1.1)
  = match (Decode.decode ToLowerASCII wordSize (list (list byte)) observe
             Decode.init (NewDecoder (chunks [bytes "1"])) (bytes "1")
             (mkHeader (PtrTo (MapOf (Basic TString) (Basic TInt))) 0) []).2 with
    | Panic => pred (length (ctxPool Decode.init))
    | _ => max 1 (length (ctxPool Decode.init))
    end.
Proof.
  apply (context_goes_back_to_pool ToLowerASCII wordSize (list (list byte)) observe).
  reflexivity.
Defined.
Lemma entry_points_share_cache_witness :
  let v := mkHeader (PtrTo (Basic TInt)) 0 in
  let d := NewDecoder (chunks [bytes "1"]) in
  compiled (Decode.decode ToLowerASCII wordSize (list (list byte)) observe
              (Decode.Decode ToLowerASCII wordSize (list (list byte)) observe
                 Decode.init d v []).1.1.1 d (bytes "2") v []).1.1
  = ["*int"%string].
Proof.
  intros v d.
  destruct (entry_points_share_cache ToLowerASCII wordSize (list (list byte)) observe
              Decode.init d (bytes "2") v [] []) as [H _]; [reflexivity|].
  rewrite H. reflexivity.
Defined.
End DecodeEvaluations.

(** ** The integer emitters and the numeric scanner *)
Section RoundTrip.
Import DecodeFloat.

Lemma bytes_cons a s : bytes (String a s) = byte_of_ascii a :: bytes s.
Proof. reflexivity. Qed.

Lemma bytes_app s1 s2 : bytes (s1 +:+ s2) = bytes s1 ++ bytes s2.
Proof.
  induction s1 as [|a s1 IH]; [done|].
  change (String a s1 +:+ s2) with (String a (s1 +:+ s2)).
  by rewrite !bytes_cons, IH.
Qed.

Lemma pretty_N_char_digit x : isDigit (byte_of_ascii (pretty_N_char x)) = true.
Proof. unfold pretty_N_char. by repeat case_match. Qed.

Lemma pretty_N_go_digits x s :
  Forall (λ b, isDigit b = true) (bytes s) →
  Forall (λ b, isDigit b = true) (bytes (pretty_N_go x s)).
Proof.
  revert s. induction (N.lt_wf_0 x) as [x _ IH]; intros s Hs.
  destruct (decide (x = 0)%N) as [->|Hx]; [by rewrite pretty_N_go_0|].
  rewrite pretty_N_go_step by lia. apply IH; [apply N.div_lt; lia|].
  rewrite bytes_cons. constructor; [apply pretty_N_char_digit|done].
Qed.

Lemma pretty_N_go_length x s :
  (String.length s ≤ String.length (pretty_N_go x s))%nat.
Proof.
  revert s. induction (N.lt_wf_0 x) as [x _ IH]; intros s.
  destruct (decide (x = 0)%N) as [->|Hx]; [by rewrite pretty_N_go_0|].
  rewrite pretty_N_go_step by lia.
  etrans; [|apply IH; apply N.div_lt; lia]. simpl. lia.
Qed.

(** The decimal numeral of a natural number: one digit or more. *)
Lemma pretty_N_digits (x : N) :
  ∃ d ds, bytes (pretty x) = d :: ds ∧ isDigit d = true ∧
          Forall (λ b, isDigit b = true) ds.
Proof.
  unfold pretty, pretty_N. destruct (decide (x = 0)%N) as [->|Hx].
  { exists "0"%byte, []. by repeat split. }
  pose proof (pretty_N_go_digits x EmptyString (Forall_nil_2 _)) as Hd.
  rewrite pretty_N_go_step in Hd |- * by lia.
  pose proof (pretty_N_go_length (x `div` 10)
                (String (pretty_N_char (x `mod` 10)) EmptyString)) as Hl.
  rewrite <- pretty_N_go_step in Hd, Hl |- * by lia.
  destruct (pretty_N_go x EmptyString) as [|a s]; [simpl in Hl; lia|].
  rewrite bytes_cons in Hd |- *. inversion Hd; subst. eauto.
Qed.

Lemma isDigit_table b : isDigit b = true → inFloatTable b = true ∧ isNumberStart b = true.
Proof. destruct b; simpl; try discriminate; done. Qed.

(** The decimal numeral of an integer: [-] or a digit, then digits. *)
Lemma pretty_Z_token (v : Z) :
  ∃ c rest, bytes (pretty v) = c :: rest ∧ isNumberStart c = true ∧
            Forall (λ b, inFloatTable b = true) rest.
Proof.
  assert (Hdig : ∀ ds, Forall (λ b, isDigit b = true) ds →
                       Forall (λ b, inFloatTable b = true) ds).
  { intros ds Hds. eapply Forall_impl; [exact Hds|].
    intros b Hb. by apply isDigit_table. }
  destruct v as [|x|x]; unfold pretty, pretty_Z.
  - exists "0"%byte, []. by repeat split.
  - destruct (pretty_N_digits (N.pos x)) as (d & ds & Hb & Hd & Hds).
    exists d, ds. split; [done|]. split; [by apply isDigit_table|by apply Hdig].
  - destruct (pretty_N_digits (N.pos x)) as (d & ds & Hb & Hd & Hds).
    exists "-"%byte, (d :: ds). rewrite bytes_app.
    change (bytes "-") with ["-"%byte]. simpl. rewrite <- Hb.
    split; [done|]. split; [done|]. rewrite Hb.
    constructor; [by apply isDigit_table|by apply Hdig].
Qed.

(** A token that stands in a buffer, followed by nothing or by a byte
    outside the table, is what [decodeByte] returns from its first byte. *)
Lemma decodeByte_token pre c rest tail :
  isNumberStart c = true →
  Forall (λ b, inFloatTable b = true) rest →
  match tail with [] => True | b :: _ => inFloatTable b = false end →
  decodeByte (pre ++ (c :: rest) ++ tail) (len pre)
  = Ok (c :: rest, len pre + len (c :: rest)).
Proof.
  intros Hstart Hrest Htail.
  set (input := pre ++ (c :: rest) ++ tail).
  pose proof (len_nonneg pre) as Hp0.
  assert (Hc : index input (len pre) = Some c).
  { unfold input. rewrite index_app_r by lia. by rewrite Z.sub_diag. }
  assert (Hlen : len (c :: rest) = 1 + len rest) by (unfold len; simpl length; lia).
  pose proof (len_nonneg rest) as Hr0.
  assert (Hmid : ∀ i, len pre < i < len pre + len (c :: rest) →
            ∃ b, index input i = Some b ∧ inFloatTable b = true).
  { intros i Hi. unfold input. rewrite index_app_r by lia.
    rewrite index_app_l by lia.
    destruct (index_in_range (c :: rest) (i - len pre)) as [b Hb]; [lia|].
    exists b. split; [done|].
    unfold index in Hb. destruct (Z.ltb_spec (i - len pre) 0); [done|].
    destruct (Z.to_nat (i - len pre)) as [|k] eqn:Hk; [lia|]. simpl in Hb.
    rewrite Forall_lookup in Hrest. by eapply Hrest. }
  assert (Hend : len pre + len (c :: rest) = len input ∨
            ∃ b, index input (len pre + len (c :: rest)) = Some b ∧
                 inFloatTable b = false).
  { destruct tail as [|b tail].
    - left. unfold input. rewrite app_nil_r. by rewrite len_app.
    - right. exists b. split; [|done]. unfold input.
      rewrite index_app_r by lia. rewrite index_app_r by lia.
      by replace (len pre + len (c :: rest) - len pre - len (c :: rest)) with 0 by lia. }
  destruct (decodeByte_number_spec input (len pre) c Hc Hstart)
    as (stop & Hd & Hr & Hin & Hstop).
  assert (stop = len pre + len (c :: rest)) as ->.
  { by apply (token_end_unique input (len pre)); [lia|lia|..]. }
  rewrite Hd. do 2 f_equal. unfold input, slice.
  rewrite drop_app_length'; [|unfold len; lia].
  rewrite take_app_length'; [done|unfold len; lia].
Qed.

(** X17.  What [encodeInt64] (and with it [encodeInt], [encodeInt8],
    [encodeInt16], [encodeInt32]) appends to the buffer is a numeric token
    for the scanner of the decoder: [decodeByte], started where the
    emitter started and with the output followed by nothing or by a byte
    outside the table, returns exactly the emitted bytes. *)
Theorem encodeInt64_scans_back (opcode : Type) (e : Encode.Encoder opcode)
    (v : Z) (tail : list byte) :
  match tail with [] => True | b :: _ => inFloatTable b = false end →
  decodeByte (Encode.buf opcode (Encode.encodeInt64 opcode e v) ++ tail)
             (len (Encode.buf opcode e))
  = Ok (bytes (pretty v), len (Encode.buf opcode e) + len (bytes (pretty v))) ∧
  Encode.encodeInt opcode e v = Encode.encodeInt64 opcode e v ∧
  Encode.encodeInt8 opcode e v = Encode.encodeInt64 opcode e v ∧
  Encode.encodeInt16 opcode e v = Encode.encodeInt64 opcode e v ∧
  Encode.encodeInt32 opcode e v = Encode.encodeInt64 opcode e v.
Proof.
  intros Htail. split; [|done].
  destruct (pretty_Z_token v) as (c & rest & Hb & Hstart & Hrest).
  simpl. rewrite Hb, <- app_assoc. by apply decodeByte_token.
Qed.

Lemma encodeInt64_scans_back_witness :
  decodeByte (Encode.buf Z (Encode.encodeInt64 Z
                (Encode.encodeByte Z (Encode.newEncoder Z) "[") (-120)) ++ bytes ",7]")
             (len (Encode.buf Z (Encode.encodeByte Z (Encode.newEncoder Z) "[")))
  = Ok (bytes (pretty (-120)),
        len (Encode.buf Z (Encode.encodeByte Z (Encode.newEncoder Z) "["))
        + len (bytes (pretty (-120)))).
Proof.
  apply (encodeInt64_scans_back Z (Encode.encodeByte Z (Encode.newEncoder Z) "[")
           (-120) (bytes ",7]")).
  reflexivity.
Defined.
End RoundTrip.

(** ** The encoder, continued *)
Section EncodeExtras.
Import Encode.
Variable opcode : Type.
Variable copyOpcode : opcode → opcode.
Variable set_ptr : opcode → Z → opcode.
Variable compileHead : Encoder opcode → Z → bool → Encoder opcode * result opcode.
Variable run : Encoder opcode → opcode → Encoder opcode * option error.

#[local] Abbreviation encode := (Encode.encode opcode copyOpcode set_ptr compileHead run).
#[local] Abbreviation Encode := (Encode.Encode opcode copyOpcode set_ptr compileHead run).
#[local] Abbreviation Encode_all :=
  (Encode.Encode_all opcode copyOpcode set_ptr compileHead run).
#[local] Abbreviation encodeForMarshal :=
  (Encode.encodeForMarshal opcode copyOpcode set_ptr compileHead run).

(** X18.  Whatever is in the pool, [NewEncoder] returns an encoder with the
    given writer, an empty buffer, indentation off and at level 0, and HTML
    escaping on.  That encoder is a new one or one of the pool, and [reset]
    has not touched its prefix, its indent string and its two maps of
    compiled code: those of a released encoder are still in it. *)
Theorem NewEncoder_state (st : State opcode) (wr : Writer) :
  let e := (NewEncoder opcode st wr).2 in
  w opcode e = Some wr ∧ buf opcode e = [] ∧ indent opcode e = 0 ∧
  enabledHTMLEscape opcode e = true ∧ enabledIndent opcode e = false ∧
  cachedOpcode opcode (NewEncoder opcode st wr).1 = cachedOpcode opcode st ∧
  ∃ e0, (e0 = newEncoder opcode ∧ encPool opcode st = [] ∨ e0 ∈ encPool opcode st) ∧
        e = reset opcode (set_w opcode e0 (Some wr)) ∧
        prefix opcode e = prefix opcode e0 ∧
        indentStr opcode e = indentStr opcode e0 ∧
        structTypeToCompiledCode opcode e = structTypeToCompiledCode opcode e0 ∧
        structTypeToCompiledIndentCode opcode e
        = structTypeToCompiledIndentCode opcode e0.
Proof.
  unfold NewEncoder. destruct (encPool opcode st) as [|e0 pool]; simpl.
  - repeat (split; [done|]). exists (newEncoder opcode). split; [by left|done].
  - repeat (split; [done|]). exists e0. split; [right; by left|done].
Qed.

(** What [encodeForMarshal] makes of the buffer that [encode] leaves. *)
Lemma encodeForMarshal_after_encode st e v st' e' :
  encode st e v = (st', e', Ok tt) →
  encodeForMarshal st e v
  = (st', e',
     if enabledIndent opcode e' then
       match index (buf opcode e') (len (buf opcode e') - 1) with
       | None => Panic
       | Some b =>
           Ok (slice (buf opcode e') 0
                 ((if Byte.eqb b x0a then len (buf opcode e') - 1 - 1
                   else len (buf opcode e') - 1) + 1))
       end
     else Ok (buf opcode e')).
Proof.
  intros He. unfold Encode.encodeForMarshal. rewrite He.
  destruct (enabledIndent opcode e'); [|done].
  by destruct (index _ _).
Qed.

(** X20.  After a successful [encode], [encodeForMarshal] returns the whole
    buffer when indentation is off.  When it is on, it panics on an empty
    buffer (the index [len - 1] is out of range), returns the buffer without
    its last byte when that byte is a newline, and the whole buffer
    otherwise; at most one newline is taken off.  The buffer of the encoder
    itself stays as it is. *)
Theorem encodeForMarshal_spec st e v st' e' :
  encode st e v = (st', e', Ok tt) →
  (encodeForMarshal st e v).1 = (st', e') ∧
  (enabledIndent opcode e' = false →
   (encodeForMarshal st e v).2 = Ok (buf opcode e')) ∧
  (enabledIndent opcode e' = true → buf opcode e' = [] →
   (encodeForMarshal st e v).2 = Panic) ∧
  (enabledIndent opcode e' = true → ∀ b, buf opcode e' = b ++ [x0a] →
   (encodeForMarshal st e v).2 = Ok b) ∧
  (enabledIndent opcode e' = true → ∀ b c, buf opcode e' = b ++ [c] → c ≠ x0a →
   (encodeForMarshal st e v).2 = Ok (b ++ [c])).
Proof.
  intros He. rewrite (encodeForMarshal_after_encode _ _ _ _ _ He).
  split; [done|]. split; [by intros ->|].
  split; [by intros -> ->|].
  assert (Hl1 : ∀ (b : list byte) c, len (b ++ [c]) - 1 = len b).
  { intros b c. rewrite len_app. change (len [c]) with 1. lia. }
  assert (Hlast : ∀ (b : list byte) c,
            index (b ++ [c]) (len (b ++ [c]) - 1) = Some c).
  { intros b c. rewrite Hl1. rewrite index_app_r by lia. by rewrite Z.sub_diag. }
  split.
  - intros -> b ->. simpl. rewrite Hlast. simpl.
    rewrite Hl1. replace (len b - 1 + 1) with (len b) by lia.
    pose proof (len_nonneg b). rewrite slice_app_l by lia. by rewrite slice_all.
  - intros -> b c -> Hc. simpl. rewrite Hlast.
    destruct (Byte.eqb c x0a) eqn:Heq; [by apply Byte.byte_dec_bl in Heq|].
    replace (len (b ++ [c]) - 1 + 1) with (len (b ++ [c])) by lia.
    by rewrite slice_all.
Qed.

(** X21.  When the compilation of either mode fails, [encode] returns the
    error of the compiler, publishes nothing and does not run anything: the
    cache is what it was. *)
Theorem encode_compile_error_publishes_nothing st e v err :
  cachedOpcode opcode st !! typ v = None →
  (∃ e1, compileHead e (typ v) true = (e1, Err err)) ∨
  (∃ e1 cIndent e2, compileHead e (typ v) true = (e1, Ok cIndent) ∧
                    compileHead e1 (typ v) false = (e2, Err err)) →
  (encode st e v).2 = Err err ∧
  cachedOpcode opcode (encode st e v).1.1 = cachedOpcode opcode st ∧
  ((encode st e v).1.2 = (compileHead e (typ v) true).1 ∨
   (encode st e v).1.2
   = (compileHead (compileHead e (typ v) true).1 (typ v) false).1).
Proof.
  intros Hc Hfail. unfold Encode.encode. rewrite Hc.
  destruct Hfail as [(e1 & H1)|(e1 & cI & e2 & H1 & H2)].
  - rewrite H1. simpl. eauto.
  - rewrite H1. simpl. rewrite H2. simpl. eauto.
Qed.

(** X22.  A published program set stays published and keeps its two
    programs, whatever is encoded afterwards, of the same type or of
    another, with or without error. *)
Theorem published_programs_stay st e v t cs :
  cachedOpcode opcode st !! t = Some cs →
  ∃ cs', cachedOpcode opcode (Encode st e v).1.1 !! t = Some cs' ∧
         template opcode (code opcode cs') = template opcode (code opcode cs) ∧
         template opcode (codeIndent opcode cs')
         = template opcode (codeIndent opcode cs).
Proof.
  intros Hc.
  destruct (Encode_state_buf opcode copyOpcode set_ptr compileHead run st e v) as [-> _].
  destruct (decide (t = typ v)) as [->|Hne].
  - by destruct (encode_hit opcode copyOpcode set_ptr compileHead run st e v cs Hc)
      as (_ & _ & H & _).
  - exists cs. by rewrite encode_other_types.
Qed.

(** [encode] only adds to the buffer and keeps the writer, when the
    compiler and the interpreter do. *)
Lemma encode_appends st e v :
  run_appends opcode run →
  compileHead_keeps_output opcode compileHead →
  ∃ out, buf opcode (encode st e v).1.2 = buf opcode e ++ out ∧
         w opcode (encode st e v).1.2 = w opcode e.
Proof.
  intros Hrun Hcmp. unfold Encode.encode.
  destruct (cachedOpcode opcode st !! typ v) as [cs|].
  - destruct (enabledIndent opcode e).
    + destruct (Encode.Pool_Get _ _ _) as [c p].
      destruct (Hrun e (set_ptr c (ptr v))) as (out & Hb & Hw).
      destruct (run e _) as [e' [err|]]; simpl in *; eauto.
    + destruct (Encode.Pool_Get _ _ _) as [c p].
      destruct (Hrun e (set_ptr c (ptr v))) as (out & Hb & Hw).
      destruct (run e _) as [e' [err|]]; simpl in *; eauto.
  - destruct (Hcmp e (typ v) true) as [Hb1 Hw1].
    destruct (compileHead e (typ v) true) as [e1 [cI|err|]]; simpl in *;
      [|exists []; by rewrite app_nil_r..].
    destruct (Hcmp e1 (typ v) false) as [Hb2 Hw2].
    destruct (compileHead e1 (typ v) false) as [e2 [c|err|]]; simpl in *;
      [|exists []; rewrite app_nil_r; split; congruence..].
    match goal with |- context [run e2 ?c] =>
      destruct (Hrun e2 c) as (out & Hb & Hw); destruct (run e2 c) as [e' err] end.
    simpl in *. exists out. split; congruence.
Qed.

Lemma prefix_chain_snoc l (x : list byte) :
  prefix_chain l → (∀ c, last l = Some c → c `prefix_of` x) → prefix_chain (l ++ [x]).
Proof.
  induction l as [|a l IH]; intros Hl Hx; [done|].
  destruct Hl as [Ha Hl]. simpl. destruct l as [|b l].
  - split; [|done]. by apply Hx.
  - split; [done|]. apply IH; [done|]. intros c Hc. by apply Hx.
Qed.

(** The chain invariant: the slices written form a chain, and the last of
    them is the beginning of the buffer. *)
Lemma Encode_chain st e v :
  run_appends opcode run →
  compileHead_keeps_output opcode compileHead →
  prefix_chain (output opcode e) →
  (∀ c, last (output opcode e) = Some c → c `prefix_of` buf opcode e) →
  prefix_chain (output opcode (Encode st e v).1.2) ∧
  (∀ c, last (output opcode (Encode st e v).1.2) = Some c →
        c `prefix_of` buf opcode (Encode st e v).1.2).
Proof.
  intros Hrun Hcmp Hch Hlast.
  destruct (encode_appends st e v Hrun Hcmp) as (out & Hb & Hw).
  unfold Encode.Encode.
  destruct (encode st e v) as [[st1 e1] res]. simpl in Hb, Hw.
  assert (Ho : output opcode e1 = output opcode e) by (unfold output; by rewrite Hw).
  assert (Hkeep : prefix_chain (output opcode e1) ∧
            ∀ c, last (output opcode e1) = Some c → c `prefix_of` buf opcode e1).
  { rewrite Ho. split; [done|]. intros c Hc. rewrite Hb.
    by apply prefix_app_r, Hlast. }
  destruct res as [[]|err|]; [|done..].
  destruct (w opcode e1) as [wr|] eqn:Hw1; [|done].
  unfold Writer_Write. destruct (failing wr) as [err|] eqn:Hf; simpl.
  - unfold output in *. simpl. rewrite Hw1 in Hkeep. done.
  - unfold output in *. simpl. rewrite Hw1 in Hkeep. destruct Hkeep as [H1 H2].
    split; [by apply prefix_chain_snoc|].
    intros c. rewrite last_snoc. by intros [= <-].
Qed.

(** X23.  An encoder never takes anything out of its buffer between calls:
    when the compiler leaves the buffer alone and the interpreter only
    appends, the slices that the writer receives over any sequence of
    [SetIndent] and [Encode] calls on a new encoder form a chain, each
    being the beginning of the next. *)
Theorem Encode_output_is_a_chain st wr calls :
  run_appends opcode run →
  compileHead_keeps_output opcode compileHead →
  written wr = [] →
  prefix_chain
    (output opcode
       (Encode_all (NewEncoder opcode st wr).1 (NewEncoder opcode st wr).2 calls).1.2).
Proof.
  intros Hrun Hcmp Hwr.
  assert (H : ∀ st e,
    prefix_chain (output opcode e) →
    (∀ c, last (output opcode e) = Some c → c `prefix_of` buf opcode e) →
    prefix_chain (output opcode (Encode_all st e calls).1.2)).
  { induction calls as [|[ind v] calls' IH]; intros st0 e Hch Hl; simpl; [done|].
    set (e0 := match ind with
               | Some (pre, unit) => SetIndent opcode e pre unit
               | None => e
               end).
    assert (He0 : output opcode e0 = output opcode e ∧ buf opcode e0 = buf opcode e).
    { unfold e0. destruct ind as [[pre unit]|]; [|done].
      unfold SetIndent. by destruct pre, unit. }
    destruct He0 as [Ho Hb].
    destruct (Encode_chain st0 e0 v Hrun Hcmp) as [H1 H2].
    { by rewrite Ho. } { rewrite Ho, Hb. done. }
    destruct (Encode st0 e0 v) as [[st1 e1] res1]. simpl in H1, H2.
    specialize (IH st1 e1 H1 H2).
    by destruct (Encode_all st1 e1 calls') as [[st2 e2] ress]. }
  assert (Ho : output opcode (NewEncoder opcode st wr).2 = []).
  { unfold NewEncoder. by destruct (encPool opcode st). }
  apply H; rewrite Ho; done.
Qed.
End EncodeExtras.

Section EncodeEvaluations.
Import Encode.

Lemma encodeForMarshal_spec_witness :
  (encodeForMarshal Z boolCopy boolSetPtr boolCompileHead boolRun (Encode.init Z)
     (reset Z (set_w Z (newEncoder Z) (Some (mkWriter [] None)))) vTrue).2
  = Ok (bytes "true").
Proof.
  destruct (encodeForMarshal_spec Z boolCopy boolSetPtr boolCompileHead boolRun
              (Encode.init Z)
              (reset Z (set_w Z (newEncoder Z) (Some (mkWriter [] None)))) vTrue
              _ _ eq_refl) as (_ & Hoff & _).
  apply Hoff. reflexivity.
Defined.

Lemma encode_compile_error_publishes_nothing_witness :
  let failing (e : Encoder Z) (_ : Z) (_ : bool) : Encoder Z * result Z :=
    (e, Err (errOther "unsupported")) in
  (Encode.encode Z boolCopy boolSetPtr failing boolRun (Encode.init Z)
     (newEncoder Z) vTrue).2 = Err (errOther "unsupported") ∧
  cachedOpcode Z (Encode.encode Z boolCopy boolSetPtr failing boolRun (Encode.init Z)
                    (newEncoder Z) vTrue).1.1 = cachedOpcode Z (Encode.init Z).
Proof.
  intros failing.
  destruct (encode_compile_error_publishes_nothing Z boolCopy boolSetPtr failing boolRun
              (Encode.init Z) (newEncoder Z) vTrue (errOther "unsupported"))
    as (Hr & Hc & _).
  - reflexivity.
  - left. exists (newEncoder Z). reflexivity.
  - split; [exact Hr|exact Hc].
Defined.

Lemma published_programs_stay_witness :
  let st1 := (Encode.Encode Z boolCopy boolSetPtr boolCompileHead boolRun (Encode.init Z)
                (reset Z (set_w Z (newEncoder Z) (Some (mkWriter [] None)))) vTrue).1.1 in
  let e1 := (Encode.Encode Z boolCopy boolSetPtr boolCompileHead boolRun (Encode.init Z)
               (reset Z (set_w Z (newEncoder Z) (Some (mkWriter [] None)))) vTrue).1.2 in
  ∃ cs', cachedOpcode Z (Encode.Encode Z boolCopy boolSetPtr boolCompileHead boolRun
                           st1 e1 vFalse).1.1 !! boolType = Some cs' ∧
         template Z (code Z cs') = 1 ∧ template Z (codeIndent Z cs') = 0.
Proof.
  intros st1 e1.
  destruct (published_programs_stay Z boolCopy boolSetPtr boolCompileHead boolRun
              st1 e1 vFalse boolType
              (mkOpcodeSet Z (mkPool Z [] 0) (mkPool Z [] 1)) eq_refl)
    as (cs' & Hl & Hc & Hi).
  exists cs'. split; [exact Hl|]. split; [exact Hc|exact Hi].
Defined.

Lemma Encode_output_is_a_chain_witness :
  prefix_chain
    (output Z
       (Encode.Encode_all Z boolCopy boolSetPtr boolCompileHead boolRun
          (NewEncoder Z (Encode.init Z) (mkWriter [] None)).1
          (NewEncoder Z (Encode.init Z) (mkWriter [] None)).2
          [(None, vTrue); (Some ([], bytes " "), vFalse); (None, vTrue)]).1.2).
Proof.
  apply (Encode_output_is_a_chain Z boolCopy boolSetPtr boolCompileHead boolRun
           (Encode.init Z) (mkWriter [] None)
           [(None, vTrue); (Some ([], bytes " "), vFalse); (None, vTrue)]).
  - intros e c. eexists. split; reflexivity.
  - intros e t b. split; reflexivity.
  - reflexivity.
Defined.
End EncodeEvaluations.
